(** * Array<T> and Result<T, E>: a shallow embedding of array.h and result.h

    The two headers are generic containers written in C.  Every function
    takes the container by pointer, guards it with the [ensure] macro and
    then reads or writes the heap.  The embedding keeps that shape: a heap
    of blocks addressed by locations, an allocator that may refuse a
    request, and a small state-and-fault monad in which each C function is
    written statement by statement. *)

From Stdlib Require Import NArith DecimalString.
From stdpp Require Import gmap list strings.

(** ** The C machine: heap, allocator, faults *)

Module Mem.

Abbreviation loc := positive.
(** A pointer to the start of a heap block; [None] is the null pointer. *)
Abbreviation ptr := (option loc).
Abbreviation NULL := None (only parsing).

Section Machine.
(** [B] is what a heap block may hold; each header fixes its own. *)
Context {B : Type}.

(** [oracle] lists the answers the allocator will give to the coming
    requests ([true]: memory granted); once it is used up every request
    is refused.  [calls] counts the calls made through function
    pointers handed to the library. *)
Record state : Type := State {
  blocks : gmap loc B;
  oracle : list bool;
  calls : nat
}.

(** A C statement either goes wrong (a null, dangling or uninitialised
    access) or yields a value and the next state. *)
Inductive outcome (A : Type) : Type :=
| Fault
| Ret (a : A) (s : state).

Definition M (A : Type) : Type := state -> outcome A.

Definition ret {A} (a : A) : M A := fun s => Ret A a s.

Definition bind {A C} (c : M A) (k : A -> M C) : M C :=
  fun s => match c s with
           | Fault _ => Fault C
           | Ret _ a s' => k a s'
           end.

(** The truth value of a pointer used as a condition. *)
Definition nonnull {A} (p : option A) : bool :=
  match p with Some _ => true | None => false end.

(** [malloc]/[calloc]: a fresh block holding [init], or NULL. *)
Definition alloc (init : B) : M ptr := fun s =>
  match oracle s with
  | true :: o =>
      let l := fresh (dom (blocks s)) in
      Ret _ (Some l) (State (<[l := init]> (blocks s)) o (calls s))
  | false :: o => Ret _ NULL (State (blocks s) o (calls s))
  | [] => Ret _ NULL s
  end.

(** [free(p)]: nothing for NULL, releases a live block, goes wrong on
    anything else. *)
Definition free (p : ptr) : M unit := fun s =>
  match p with
  | None => Ret _ tt s
  | Some l =>
      match blocks s !! l with
      | Some _ => Ret _ tt (State (delete l (blocks s)) (oracle s) (calls s))
      | None => Fault _
      end
  end.

(** A call through a function pointer: counted, then run. *)
Definition call {A} (f : M A) : M A := fun s =>
  f (State (blocks s) (oracle s) (S (calls s))).
End Machine.

Arguments state : clear implicits.
Arguments outcome : clear implicits.
Arguments M : clear implicits.
Arguments Fault {B A}.
Arguments Ret {B A} a s.

Module Notations.
Notation "x <- c ;; k" := (bind c (fun x => k))
  (at level 100, c at next level, right associativity).
(** [ensure(COND, VAL)] is [if (not (COND)) return VAL]. *)
Notation "'ensure' c 'or' v ;; k" := (if c then k else ret v)
  (at level 100, c at level 9, v at level 9, right associativity).
End Notations.

End Mem.

(** ** array.h *)

Module Array.
Import Mem Mem.Notations.

(** The value of a [T] whose bytes are all zero, as [calloc] leaves it. *)
Class Zero (T : Type) := zero : T.

Section Generic.
Context {T : Type} `{Zero T}.

(** [typedef struct { T* data; size_t _size; } Self;] a field is [None]
    until it is first assigned. *)
Record Self : Type := { data : option ptr; _size : option N }.

Inductive block : Type :=
| Obj (a : Self)
| Cells (l : list T).

(** A [T*] into a backing store: block and index; [None] is NULL. *)
Definition Tptr : Type := option (loc * N).

Definition load_size (array : ptr) : M block N := fun s =>
  match array with
  | Some a =>
      match blocks s !! a with
      | Some (Obj {| _size := Some n |}) => Ret n s
      | _ => Fault
      end
  | None => Fault
  end.

Definition load_data (array : ptr) : M block ptr := fun s =>
  match array with
  | Some a =>
      match blocks s !! a with
      | Some (Obj {| data := Some d |}) => Ret d s
      | _ => Fault
      end
  | None => Fault
  end.

Definition store_data (array : ptr) (d : ptr) : M block unit := fun s =>
  match array with
  | Some a =>
      match blocks s !! a with
      | Some (Obj r) =>
          Ret tt (State (<[a := Obj {| data := Some d; _size := _size r |}]> (blocks s))
                        (oracle s) (calls s))
      | _ => Fault
      end
  | None => Fault
  end.

Definition store_size (array : ptr) (n : N) : M block unit := fun s =>
  match array with
  | Some a =>
      match blocks s !! a with
      | Some (Obj r) =>
          Ret tt (State (<[a := Obj {| data := data r; _size := Some n |}]> (blocks s))
                        (oracle s) (calls s))
      | _ => Fault
      end
  | None => Fault
  end.

(** [&d[index]]: arithmetic on a null base is undefined. *)
Definition elem_addr (d : ptr) (index : N) : M block Tptr := fun s =>
  match d with
  | Some b => Ret (Some (b, index)) s
  | None => Fault
  end.

(** [d[index] = value]. *)
Definition store_elem (d : ptr) (index : N) (value : T) : M block unit := fun s =>
  match d with
  | Some b =>
      match blocks s !! b with
      | Some (Cells l) =>
          if decide (N.to_nat index < length l)
          then Ret tt (State (<[b := Cells (<[N.to_nat index := value]> l)]> (blocks s))
                             (oracle s) (calls s))
          else Fault
      | _ => Fault
      end
  | None => Fault
  end.

(** [*p], as a caller reads a pointer the library handed out. *)
Definition deref (s : state block) (p : Tptr) : option T :=
  match p with
  | Some (b, i) =>
      match blocks s !! b with
      | Some (Cells l) => l !! N.to_nat i
      | _ => None
      end
  | None => None
  end.

Definition malloc_Self : M block ptr :=
  alloc (Obj {| data := None; _size := None |}).

Definition calloc (count : N) : M block ptr :=
  alloc (Cells (replicate (N.to_nat count) zero)).

Definition new (size : N) : M block ptr :=
  array <- malloc_Self ;;
  d <- calloc size ;;
  _ <- store_data array d ;;
  _ <- store_size array size ;;
  ret array.

Definition delete (array : ptr) : M block bool :=
  ensure (nonnull array) or false ;;
  d <- load_data array ;;
  _ <- free d ;;
  _ <- free array ;;
  ret true.

Definition get (array : ptr) (index : N) : M block Tptr :=
  ensure (nonnull array) or NULL ;;
  n <- load_size array ;;
  ensure (index <? n)%N or NULL ;;
  d <- load_data array ;;
  elem_addr d index.

Definition set (array : ptr) (index : N) (value : T) : M block bool :=
  ensure (nonnull array) or false ;;
  n <- load_size array ;;
  ensure (index <? n)%N or false ;;
  d <- load_data array ;;
  _ <- store_elem d index value ;;
  ret true.

Definition replace (array : ptr) (index : N) (value : T) : M block Tptr :=
  ensure (nonnull array) or NULL ;;
  n <- load_size array ;;
  ensure (index <? n)%N or NULL ;;
  old_value <- get array index ;;
  _ <- set array index value ;;
  ret old_value.

Definition size (array : ptr) : M block N :=
  ensure (nonnull array) or 0%N ;;
  load_size array.

(** The elements of a well-formed array: the record is live, both
    fields are assigned, [data] points to a live backing store and
    [_size] is its length. *)
Definition contents (s : state block) (array : ptr) : option (list T) :=
  match array with
  | Some a =>
      match blocks s !! a with
      | Some (Obj {| data := Some (Some d); _size := Some n |}) =>
          match blocks s !! d with
          | Some (Cells l) =>
              if decide (N.of_nat (length l) = n) then Some l else None
          | _ => None
          end
      | _ => None
      end
  | None => None
  end.

(** The heap layout behind [contents]: record [a], backing store [d]. *)
Definition laid_out (s : state block) (a d : loc) (l : list T) : Prop :=
  blocks s !! a
    = Some (Obj {| data := Some (Some d); _size := Some (N.of_nat (length l)) |})
  ∧ blocks s !! d = Some (Cells l).

(** The heap after [d[i] = v] on the backing store [d] holding [l]. *)
Definition written (s : state block) (d : loc) (l : list T) (i : N) (v : T)
    : state block :=
  State (<[d := Cells (<[N.to_nat i := v]> l)]> (blocks s)) (oracle s) (calls s).

(** The heap after [free(array->data); free(array);]. *)
Definition released (s : state block) (a d : loc) : state block :=
  State (base.delete a (base.delete d (blocks s))) (oracle s) (calls s).
End Generic.

Arguments Self : clear implicits.
Arguments block : clear implicits.

End Array.

(** ** result.h *)

Module Result.
Import Mem Mem.Notations.

Section Generic.
Context {T E : Type}.

(** [typedef struct { bool _is_ok; union { T _ok; E _err; }; } Self;]
    the union remembers which member was written last; a field is
    [None] until it is first assigned. *)
Record Self : Type := { _is_ok : option bool; _ok_err : option (T + E) }.

(** Besides the records, the heap holds the caller's own [T] and [E]
    objects, which fallback pointers and suppliers refer to. *)
Inductive block : Type :=
| Obj (r : Self)
| BoxT (v : T)
| BoxE (e : E).

(** What a [T*] can point to: the [_ok] member of a record or a [T]
    object of the caller; likewise for [E*]. *)
Inductive Taddr : Type := ok_of (r : loc) | at_T (l : loc).
Inductive Eaddr : Type := err_of (r : loc) | at_E (l : loc).
Definition Tptr : Type := option Taddr.
Definition Eptr : Type := option Eaddr.

Definition load_is_ok (result : ptr) : M block bool := fun s =>
  match result with
  | Some r =>
      match blocks s !! r with
      | Some (Obj {| _is_ok := Some b |}) => Ret b s
      | _ => Fault
      end
  | None => Fault
  end.

Definition store_is_ok (result : ptr) (b : bool) : M block unit := fun s =>
  match result with
  | Some r =>
      match blocks s !! r with
      | Some (Obj x) =>
          Ret tt (State (<[r := Obj {| _is_ok := Some b; _ok_err := _ok_err x |}]> (blocks s))
                        (oracle s) (calls s))
      | _ => Fault
      end
  | None => Fault
  end.

Definition store_union (result : ptr) (u : T + E) : M block unit := fun s =>
  match result with
  | Some r =>
      match blocks s !! r with
      | Some (Obj x) =>
          Ret tt (State (<[r := Obj {| _is_ok := _is_ok x; _ok_err := Some u |}]> (blocks s))
                        (oracle s) (calls s))
      | _ => Fault
      end
  | None => Fault
  end.

(** [result->_ok = value] and [result->_err = error]. *)
Definition store_ok (result : ptr) (value : T) : M block unit :=
  store_union result (inl value).
Definition store_err (result : ptr) (error : E) : M block unit :=
  store_union result (inr error).

(** Reading [result->_ok] or [result->_err]; reading the member that
    was not written last goes wrong. *)
Definition load_ok (result : ptr) : M block T := fun s =>
  match result with
  | Some r =>
      match blocks s !! r with
      | Some (Obj {| _ok_err := Some (inl v) |}) => Ret v s
      | _ => Fault
      end
  | None => Fault
  end.

Definition load_err (result : ptr) : M block E := fun s =>
  match result with
  | Some r =>
      match blocks s !! r with
      | Some (Obj {| _ok_err := Some (inr e) |}) => Ret e s
      | _ => Fault
      end
  | None => Fault
  end.

(** [&result->_ok] and [&result->_err]. *)
Definition addr_ok (result : ptr) : M block Tptr := fun s =>
  match result with
  | Some r => Ret (Some (ok_of r)) s
  | None => Fault
  end.

Definition addr_err (result : ptr) : M block Eptr := fun s =>
  match result with
  | Some r => Ret (Some (err_of r)) s
  | None => Fault
  end.

(** [*p] for a [T*] and for an [E*], as the caller reads them. *)
Definition derefT (s : state block) (p : Tptr) : option T :=
  match p with
  | Some (ok_of r) =>
      match blocks s !! r with
      | Some (Obj {| _ok_err := Some (inl v) |}) => Some v
      | _ => None
      end
  | Some (at_T l) =>
      match blocks s !! l with
      | Some (BoxT v) => Some v
      | _ => None
      end
  | None => None
  end.

Definition derefE (s : state block) (p : Eptr) : option E :=
  match p with
  | Some (err_of r) =>
      match blocks s !! r with
      | Some (Obj {| _ok_err := Some (inr e) |}) => Some e
      | _ => None
      end
  | Some (at_E l) =>
      match blocks s !! l with
      | Some (BoxE e) => Some e
      | _ => None
      end
  | None => None
  end.

Definition malloc_Self : M block ptr :=
  alloc (Obj {| _is_ok := None; _ok_err := None |}).

Definition success (value : T) : M block ptr :=
  result <- malloc_Self ;;
  ensure (nonnull result) or NULL ;;
  _ <- store_is_ok result true ;;
  _ <- store_ok result value ;;
  ret result.

Definition fail (error : E) : M block ptr :=
  result <- malloc_Self ;;
  ensure (nonnull result) or NULL ;;
  _ <- store_is_ok result false ;;
  _ <- store_err result error ;;
  ret result.

(** The body ends after [free(result)] with no [return]: on that path
    the call has no value, written [None]. *)
Definition delete (result : ptr) : M block (option bool) :=
  ensure (nonnull result) or (Some false) ;;
  _ <- free result ;;
  ret None.

Definition is_ok (result : ptr) : M block bool :=
  ensure (nonnull result) or false ;;
  load_is_ok result.

Definition is_err (result : ptr) : M block bool :=
  ensure (nonnull result) or false ;;
  b <- load_is_ok result ;;
  ret (negb b).

Definition value (result : ptr) : M block Tptr :=
  ensure (nonnull result) or NULL ;;
  b <- load_is_ok result ;;
  ensure b or NULL ;;
  addr_ok result.

Definition error (result : ptr) : M block Eptr :=
  ensure (nonnull result) or NULL ;;
  b <- load_is_ok result ;;
  ensure (negb b) or NULL ;;
  addr_err result.

Definition value_or (result : ptr) (fallback : Tptr) : M block Tptr :=
  ensure (nonnull result) or NULL ;;
  b <- load_is_ok result ;;
  if b then addr_ok result else ret fallback.

Definition error_or (result : ptr) (fallback : Eptr) : M block Eptr :=
  ensure (nonnull result) or NULL ;;
  b <- load_is_ok result ;;
  if negb b then addr_err result else ret fallback.

Definition value_or_else (result : ptr) (or_else : M block Tptr) : M block Tptr :=
  ensure (nonnull result) or NULL ;;
  b <- load_is_ok result ;;
  if b then addr_ok result else call or_else.

Definition error_or_else (result : ptr) (or_else : M block Eptr) : M block Eptr :=
  ensure (nonnull result) or NULL ;;
  b <- load_is_ok result ;;
  if negb b then addr_err result else call or_else.

Definition match_ (result : ptr) (then_ : T -> M block unit)
    (or_else : E -> M block unit) : M block unit :=
  ensure (nonnull result) or tt ;;
  b <- load_is_ok result ;;
  if b then (v <- load_ok result ;; call (then_ v))
  else (e <- load_err result ;; call (or_else e)).

(** The sum a well-formed record stands for: the discriminant is
    assigned and the union member it selects is the one written. *)
Definition view (s : state block) (result : ptr) : option (T + E) :=
  match result with
  | Some r =>
      match blocks s !! r with
      | Some (Obj {| _is_ok := Some true; _ok_err := Some (inl v) |}) => Some (inl v)
      | Some (Obj {| _is_ok := Some false; _ok_err := Some (inr e) |}) => Some (inr e)
      | _ => None
      end
  | None => None
  end.
End Generic.

Arguments Self : clear implicits.
Arguments block : clear implicits.

End Result.

(** ** The instantiations of the two demonstration programs *)

Module Demo.
Import Mem.

(** [typedef char* str;] a string literal or NULL. *)
Definition str : Type := option string.

#[export] Instance str_zero : Array.Zero str := None.

Inductive ExitCode : Type :=
| SUCCESS
| COMMAND_NOT_FOUND
| PERMISSION_DENIED
| UNKNOWN_ERROR.

(** An empty heap whose allocator will answer [o]. *)
Definition boot {B} (o : list bool) : state B := State ∅ o 0.

(** A supplier that goes wrong as soon as it is run. *)
Definition trap {B A} : M B A := fun _ => Fault.

Open Scope string_scope.

Definition names : list str :=
  [Some "Alice"; Some "Bob"; Some "Charlie"; Some "Diana"; Some "Eve"].

(** The heap of array/main.c after its five [set] calls: the record at
    location 1, its backing store at location 2. *)
Definition five_names : state (Array.block str) :=
  State {[ 1%positive :=
             Array.Obj {| Array.data := Some (Some 2%positive);
                          Array._size := Some 5%N |};
           2%positive := Array.Cells names ]} [] 0.

(** The heap of result/main.c after [valid] and [invalid] are built
    (locations 1 and 2), with two objects of the caller to fall back on
    (locations 3 and 4). *)
Definition outcomes : state (Result.block str str) :=
  State {[ 1%positive :=
             Result.Obj {| Result._is_ok := Some true;
                           Result._ok_err := Some (inl (Some "Operation succeeded")) |};
           2%positive :=
             Result.Obj {| Result._is_ok := Some false;
                           Result._ok_err := Some (inr (Some "Operation failed")) |};
           3%positive := Result.BoxT (Some "default");
           4%positive := Result.BoxE (Some "no error") ]} [] 0.

(** A supplier that returns the caller's default object. *)
Definition default_supplier : M (Result.block str str) Result.Tptr :=
  fun s => Ret (Some (Result.at_T 3%positive)) s.

End Demo.

(** ** Standard output and the printing functions *)

Module Stdio.
Import Mem.

Section IO.
Context {B : Type}.

(** A printing function runs on the same heap and appends to the text
    written so far.  Its loops are given a budget of iterations;
    [IFuel] marks a budget that ran out before the loop ended. *)
Inductive ioutcome (A : Type) : Type :=
| IFault
| IFuel
| IRet (a : A) (s : state B) (out : string).

Definition IO (A : Type) : Type := state B -> string -> ioutcome A.

Definition ret {A} (a : A) : IO A := fun s out => IRet A a s out.

Definition bind {A C} (c : IO A) (k : A -> IO C) : IO C :=
  fun s out => match c s out with
               | IFault _ => IFault C
               | IFuel _ => IFuel C
               | IRet _ a s' out' => k a s' out'
               end.

(** A heap statement inside a printing function. *)
Definition lift {A} (c : M B A) : IO A :=
  fun s out => match c s with
               | Fault => IFault A
               | Ret a s' => IRet A a s' out
               end.

(** [printf] of a text with its arguments already filled in. *)
Definition printf (text : string) : IO unit :=
  fun s out => IRet unit tt s (out +:+ text).

Definition out_of_fuel {A} : IO A := fun _ _ => IFuel A.
End IO.

Arguments ioutcome : clear implicits.
Arguments IO : clear implicits.
Arguments IFault {B A}.
Arguments IFuel {B A}.
Arguments IRet {B A} a s out.

(** The newline character of the format strings. *)
Definition nl : string := String (Ascii.ascii_of_nat 10) EmptyString.

(** [%zu]: a [size_t] in decimal. *)
Definition zu (n : N) : string := NilEmpty.string_of_uint (N.to_uint n).

(** [size_t] arithmetic on operands below [2 ^ 64] wraps around. *)
Definition SIZE_MAX : N := 2 ^ 64 - 1.
Definition size_t_add (a b : N) : N := ((a + b) mod (SIZE_MAX + 1))%N.
Definition size_t_sub (a b : N) : N := ((a + (SIZE_MAX + 1) - b) mod (SIZE_MAX + 1))%N.

Module Notations.
Notation "x <- c ;; k" := (bind c (fun x => k))
  (at level 100, c at next level, right associativity).
Notation "'ensure' c 'or' v ;; k" := (if c then k else ret v)
  (at level 100, c at level 9, v at level 9, right associativity).
End Notations.

End Stdio.

Module ArrayIO.
Import Mem Array Stdio Stdio.Notations.

Section Generic.
Context {T : Type}.
(** What the includer defines before [#include "array.h"]: the macro
    [PRINT_T] and, through [TOSTRING(T)], the name of the type. *)
Variable PRINT_T : T -> IO (block T) unit.
Variable T_name : string.

(** Reading [d[index]]. *)
Definition load_elem (d : ptr) (index : N) : M (block T) T := fun s =>
  match d with
  | Some b =>
      match blocks s !! b with
      | Some (Cells l) =>
          match l !! N.to_nat index with
          | Some x => Ret x s
          | None => Fault
          end
      | _ => Fault
      end
  | None => Fault
  end.

(** [for (size_t i = ...; i < array->_size; i++) { ... }] from [i]. *)
Fixpoint print_loop (fuel : nat) (array : ptr) (i : N) : IO (block T) unit :=
  match fuel with
  | O => out_of_fuel
  | S fuel' =>
      n <- lift (load_size array) ;;
      if (i <? n)%N then
        d <- lift (load_data array) ;;
        x <- lift (load_elem d i) ;;
        _ <- PRINT_T x ;;
        n' <- lift (load_size array) ;;
        _ <- (if (i <? size_t_sub n' 1)%N then printf ", " else ret tt) ;;
        print_loop fuel' array (size_t_add i 1)
      else ret tt
  end.

Definition print (fuel : nat) (array : ptr) : IO (block T) unit :=
  ensure (nonnull array) or tt ;;
  _ <- printf "[" ;;
  _ <- print_loop fuel array 0 ;;
  printf "]".

Definition println (fuel : nat) (array : ptr) : IO (block T) unit :=
  _ <- print fuel array ;;
  printf nl.

Definition debug (fuel : nat) (array : ptr) : IO (block T) unit :=
  if negb (nonnull array) then
    printf ("Array<" +:+ T_name +:+ "> { NULL }" +:+ nl)
  else
    _ <- printf ("Array<" +:+ T_name +:+ "> {" +:+ nl +:+ "}") ;;
    n <- lift (load_size array) ;;
    _ <- printf ("  size: " +:+ zu n +:+ "," +:+ nl) ;;
    _ <- printf "  data: " ;;
    _ <- println fuel array ;;
    printf ("}" +:+ nl).

(** The text of an array: its elements between brackets, separated by
    a comma and a space. *)
Definition bracketed (show : T -> string) (l : list T) : string :=
  "[" +:+ String.concat ", " (map show l) +:+ "]".

(** [PRINT_T], run in state [s], writes the text [show x] of each
    element [x] of [l] and leaves the heap alone. *)
Definition prints_elements (show : T -> string) (s : state (block T))
    (l : list T) : Prop :=
  forall x out, x ∈ l -> PRINT_T x s out = IRet tt s (out +:+ show x).
End Generic.

End ArrayIO.

Module ResultIO.
Import Mem Result Stdio Stdio.Notations.

Section Generic.
Context {T E : Type}.
(** What the includer defines before [#include "result.h"]. *)
Variable PRINT_T : T -> IO (block T E) unit.
Variable PRINT_E : E -> IO (block T E) unit.
Variable T_name E_name : string.

(** [(result->_is_ok) ? PRINT_T(result->_ok) : PRINT_E(result->_err)]. *)
Definition print_payload (result : ptr) : IO (block T E) unit :=
  b <- lift (load_is_ok result) ;;
  if b then (v <- lift (load_ok result) ;; PRINT_T v)
  else (e <- lift (load_err result) ;; PRINT_E e).

Definition print (result : ptr) : IO (block T E) unit :=
  ensure (nonnull result) or tt ;;
  b <- lift (load_is_ok result) ;;
  _ <- printf (if b then "Ok" else "Error") ;;
  _ <- printf " { " ;;
  _ <- print_payload result ;;
  printf " }".

Definition println (result : ptr) : IO (block T E) unit :=
  ensure (nonnull result) or tt ;;
  _ <- print result ;;
  printf nl.

Definition debug (result : ptr) : IO (block T E) unit :=
  ensure (nonnull result) or tt ;;
  b <- lift (load_is_ok result) ;;
  let variant := if b then "Ok" else "Error" in
  _ <- printf ("Result::" +:+ variant +:+ "<" +:+ T_name +:+ ", " +:+ E_name
               +:+ "> {" +:+ nl) ;;
  b' <- lift (load_is_ok result) ;;
  _ <- printf ("  is_ok: " +:+ (if b' then "true" else "false") +:+ "," +:+ nl) ;;
  _ <- printf "  value: " ;;
  _ <- print_payload result ;;
  printf (nl +:+ "}" +:+ nl).
End Generic.

(** A printing macro that, run in state [s] on [x], writes [text] and
    leaves the heap alone. *)
Definition prints {B X} (P : X -> IO B unit) (s : state B) (x : X)
    (text : string) : Prop :=
  forall out, P x s out = IRet tt s (out +:+ text).

End ResultIO.

(** array/main.c *)

Module DemoIO.
Import Mem Stdio Stdio.Notations Demo.

(** [#define PRINT_T(value) printf("%s", value)]: a null [char*] has no
    text to print. *)
Definition print_str {B} (value : str) : IO B unit :=
  match value with
  | Some text => printf text
  | None => fun _ _ => IFault
  end.

Definition array_main (fuel : nat) : IO (Array.block str) Z :=
  names <- lift (Array.new 5) ;;
  _ <- lift (Array.set names 0 (Some "Alice")) ;;
  _ <- lift (Array.set names 1 (Some "Bob")) ;;
  _ <- lift (Array.set names 2 (Some "Charlie")) ;;
  _ <- lift (Array.set names 3 (Some "Diana")) ;;
  _ <- lift (Array.set names 4 (Some "Eve")) ;;
  _ <- ArrayIO.debug print_str "str" fuel names ;;
  _ <- lift (Array.delete names) ;;
  ret 0%Z.

(** What array/main.c writes when it runs to its end. *)
Definition array_main_text : string :=
  "Array<str> {" +:+ nl +:+ "}  size: 5," +:+ nl
  +:+ "  data: [Alice, Bob, Charlie, Diana, Eve]" +:+ nl +:+ "}" +:+ nl.

End DemoIO.

(** Heaps for trying the functions out: those of the two programs
    with an allocator that still answers, and one with a second array. *)

Module Heaps.
Import Mem Demo.

Definition five_names_with (o : list bool) : state (Array.block str) :=
  State (blocks five_names) o 0.

Definition outcomes_with (o : list bool) : state (Result.block str str) :=
  State (blocks outcomes) o 0.

(** The five names (locations 1 and 2) beside a new array of two
    elements (locations 3 and 4). *)
Definition two_arrays : state (Array.block str) :=
  State {[ 1%positive :=
             Array.Obj {| Array.data := Some (Some 2%positive);
                          Array._size := Some 5%N |};
           2%positive := Array.Cells names;
           3%positive :=
             Array.Obj {| Array.data := Some (Some 4%positive);
                          Array._size := Some 2%N |};
           4%positive := Array.Cells [None; None] ]} [] 0.

(** The text [print_str] writes for a non-null string. *)
Definition text_of (value : str) : string :=
  match value with Some text => text | None => "" end.

(** Two handlers for [match]: each leaves a mark in the heap, telling
    which one ran and on what. *)
Definition mark_success (message : str) : M (Result.block str str) unit :=
  fun s => Ret tt (State (<[9%positive := Result.BoxT message]> (blocks s))
                         (oracle s) (calls s)).

Definition mark_fail (error : str) : M (Result.block str str) unit :=
  fun s => Ret tt (State (<[9%positive := Result.BoxE error]> (blocks s))
                         (oracle s) (calls s)).

(** A supplier that returns the caller's fallback error object. *)
Definition error_supplier : M (Result.block str str) Result.Eptr :=
  fun s => Ret (Some (Result.at_E 4%positive)) s.

End Heaps.

(** * Properties of array.h *)

Module ArraySpec.
Import Mem Mem.Notations Array Demo.

Section Generic.
Context {T : Type} `{Zero T}.
Implicit Types (s : state (block T)) (array : ptr) (l : list T) (i n : N) (v : T).

Lemma laid_out_contents s a d l :
  laid_out s a d l → contents s (Some a) = Some l.
Proof.
  intros [Ha Hd]. unfold contents. rewrite Ha, Hd.
  by rewrite decide_True.
Qed.

Lemma contents_laid_out s array l :
  contents s array = Some l → ∃ a d, array = Some a ∧ laid_out s a d l.
Proof.
  unfold contents, laid_out. intros Hc.
  destruct array as [a|]; [|done].
  destruct (blocks s !! a) as [[[[[d|]|] [n|]]|]|] eqn:Ha; try done.
  destruct (blocks s !! d) as [[|l']|] eqn:Hd; try done.
  case_decide; [|done]. simplify_eq. eauto.
Qed.

Lemma laid_out_ne s a d l : laid_out s a d l → a ≠ d.
Proof. intros [Ha Hd] ->. congruence. Qed.

(** Run a function body: unfold the statements, then feed the known
    heap cells and comparisons to the matches that wait for them. *)
Ltac step :=
  unfold new, delete, get, set, replace, size, bind, ret, nonnull,
    load_size, load_data, elem_addr, store_elem; simpl;
  repeat match goal with
    | E : blocks ?s !! ?a = _ |- context [blocks ?s !! ?a] => rewrite E; simpl
    | E : (?i <? ?n)%N = _ |- context [(?i <? ?n)%N] => rewrite E; simpl
    end.

Lemma size_laid_out s a d l :
  laid_out s a d l → size (Some a) s = Ret (N.of_nat (length l)) s.
Proof. intros [Ha _]. by step. Qed.

Lemma get_in s a d l i :
  laid_out s a d l → (i < N.of_nat (length l))%N →
  get (Some a) i s = Ret (Some (d, i)) s.
Proof.
  intros [Ha _] Hi%N.ltb_lt. by step.
Qed.

Lemma get_out s a d l i :
  laid_out s a d l → (N.of_nat (length l) ≤ i)%N →
  get (Some a) i s = Ret NULL s.
Proof.
  intros [Ha _] Hi%N.ltb_ge. by step.
Qed.

Lemma deref_laid_out s a d l i :
  laid_out s a d l → deref s (Some (d, i)) = l !! N.to_nat i.
Proof. intros [_ Hd]. unfold deref. by rewrite Hd. Qed.

Lemma set_in s a d l i v :
  laid_out s a d l → (i < N.of_nat (length l))%N →
  set (Some a) i v s = Ret true (written s d l i v).
Proof.
  intros [Ha Hd] Hi. apply N.ltb_lt in Hi as Hb. step.
  by rewrite decide_True by lia.
Qed.

Lemma set_out s a d l i v :
  laid_out s a d l → (N.of_nat (length l) ≤ i)%N →
  set (Some a) i v s = Ret false s.
Proof.
  intros [Ha _] Hi%N.ltb_ge. by step.
Qed.

Lemma written_laid_out s a d l i v :
  laid_out s a d l → laid_out (written s d l i v) a d (<[N.to_nat i := v]> l).
Proof.
  intros Hl. pose proof (laid_out_ne _ _ _ _ Hl) as Hne.
  destruct Hl as [Ha Hd]. split; simpl.
  - rewrite lookup_insert_ne by done. by rewrite length_insert.
  - by rewrite lookup_insert_eq.
Qed.

Lemma replace_in s a d l i v :
  laid_out s a d l → (i < N.of_nat (length l))%N →
  replace (Some a) i v s = Ret (Some (d, i)) (written s d l i v).
Proof.
  intros Hl Hi.
  pose proof (get_in _ _ _ _ _ Hl Hi) as Hg.
  pose proof (set_in _ _ _ _ _ v Hl Hi) as Hs.
  destruct Hl as [Ha Hd]. apply N.ltb_lt in Hi as Hb.
  unfold replace, bind, nonnull, load_size. simpl.
  rewrite Ha. simpl. rewrite Hb.
  unfold bind in Hg, Hs. by rewrite Hg, Hs.
Qed.

Lemma new_laid_out s n o :
  oracle s = true :: true :: o →
  ∃ a d s', new n s = Ret (Some a) s'
    ∧ laid_out s' a d (replicate (N.to_nat n) zero) ∧ oracle s' = o.
Proof.
  intros Ho. unfold new, malloc_Self, calloc, alloc, bind, ret. rewrite Ho. simpl.
  set (r0 := Obj {| data := None; _size := None |}).
  set (a := fresh (dom (blocks s))).
  set (m1 := <[a := r0]> (blocks s)).
  set (d := fresh (dom m1)).
  assert (Hne : d ≠ a).
  { intros Heq. apply (is_fresh (dom m1)). fold d. rewrite Heq.
    apply elem_of_dom. unfold m1. rewrite lookup_insert_eq. by eexists. }
  unfold store_data, store_size. simpl.
  rewrite lookup_insert_ne by done. unfold m1 at 1. rewrite lookup_insert_eq. simpl.
  rewrite lookup_insert_eq. simpl.
  eexists a, d, _. split; [reflexivity|]. split; [|done].
  split; simpl.
  - rewrite lookup_insert_eq, length_replicate, N2Nat.id. done.
  - rewrite !lookup_insert_ne by done. by rewrite lookup_insert_eq.
Qed.

(** When the record itself cannot be allocated, [new] writes through
    the null pointer it got. *)
Lemma new_refused_faults s n :
  head (oracle s) ≠ Some true → new n s = Fault.
Proof.
  intros Ho. unfold new, malloc_Self, calloc, alloc, bind, ret.
  destruct (oracle s) as [|[] o] eqn:E; simpl in *; try done.
  - by rewrite E.
  - by destruct o as [|[] o'].
Qed.

(** When only the backing store cannot be allocated, [new] still hands
    out a record claiming [n] elements; reading any of them goes wrong. *)
Lemma new_without_store s n o i :
  oracle s = true :: false :: o → (i < n)%N →
  ∃ a s', new n s = Ret (Some a) s' ∧ size (Some a) s' = Ret n s'
    ∧ get (Some a) i s' = Fault.
Proof.
  intros Ho Hi%N.ltb_lt. unfold new, malloc_Self, calloc, alloc, bind, ret.
  rewrite Ho. simpl. unfold store_data, store_size. simpl.
  rewrite lookup_insert_eq. simpl. rewrite lookup_insert_eq. simpl.
  eexists _, _. split; [reflexivity|].
  unfold size, get, bind, ret, load_size, load_data, elem_addr. simpl.
  rewrite !lookup_insert_eq. simpl. split; [done|].
  rewrite Hi. simpl. by rewrite lookup_insert_eq.
Qed.

Lemma array_delete_null s : delete NULL s = Ret false s.
Proof. done. Qed.

Lemma array_delete_laid_out s a d l :
  laid_out s a d l → delete (Some a) s = Ret true (released s a d).
Proof.
  intros Hl. pose proof (laid_out_ne _ _ _ _ Hl) as Hne.
  destruct Hl as [Ha Hd]. step. unfold free. simpl.
  rewrite lookup_delete_ne by done. by rewrite Ha.
Qed.

(** The pointer [replace] returns is the address of the slot it has
    just overwritten: it read [v1] before the call and reads [v2]
    after it. *)
Lemma replace_after_set s array l i v1 v2 :
  contents s array = Some l → (i < N.of_nat (length l))%N →
  ∃ s1 s2 p, set array i v1 s = Ret true s1
    ∧ replace array i v2 s1 = Ret p s2
    ∧ deref s1 p = Some v1
    ∧ deref s2 p = Some v2
    ∧ get array i s2 = Ret p s2.
Proof.
  intros (a & d & -> & Hl)%contents_laid_out Hi.
  pose proof (written_laid_out _ _ _ _ i v1 Hl) as Hl1.
  assert (Hi1 : (i < N.of_nat (length (<[N.to_nat i := v1]> l)))%N)
    by by rewrite length_insert.
  pose proof (written_laid_out _ _ _ _ i v2 Hl1) as Hl2.
  eexists _, _, _. split; [by apply set_in|].
  split; [by apply replace_in|].
  split; [|split].
  - rewrite (deref_laid_out _ _ _ _ _ Hl1).
    apply list_lookup_insert_eq. lia.
  - rewrite (deref_laid_out _ _ _ _ _ Hl2).
    apply list_lookup_insert_eq. rewrite length_insert. lia.
  - apply (get_in _ _ _ _ _ Hl2). by rewrite length_insert.
Qed.

(** C8: when the allocator grants both requests, [new(n)] yields an
    array whose [size] is [n] and whose every slot [i < n] holds the
    zero value of the element type. *)
Theorem new_size_and_zero_slots s n o :
  oracle s = true :: true :: o →
  ∃ a s', new n s = Ret (Some a) s'
    ∧ size (Some a) s' = Ret n s'
    ∧ ∀ i, (i < n)%N →
        ∃ p, get (Some a) i s' = Ret p s' ∧ deref s' p = Some zero.
Proof.
  intros Ho. destruct (new_laid_out s n o Ho) as (a & d & s' & Hn & Hl & _).
  exists a, s'. split; [done|].
  assert (Hlen : N.of_nat (length (replicate (N.to_nat n) (zero : T))) = n)
    by by rewrite length_replicate, N2Nat.id.
  split.
  - rewrite (size_laid_out _ _ _ _ Hl). by rewrite Hlen.
  - intros i Hi. exists (Some (d, i)). split.
    + apply (get_in _ _ _ _ _ Hl). by rewrite Hlen.
    + rewrite (deref_laid_out _ _ _ _ _ Hl).
      apply lookup_replicate_2. lia.
Qed.

(** C9: on an array of size [n], for [i < n] the call [set(a, i, v)]
    succeeds and a following [get(a, i)] points to [v]; for [i >= n]
    [get] returns NULL and [set] returns false, both leaving the heap
    as it was. *)
Theorem set_get_in_and_out_of_range s array l n i v :
  contents s array = Some l → size array s = Ret n s →
  ((i < n)%N →
     ∃ s' p, set array i v s = Ret true s'
       ∧ get array i s' = Ret p s' ∧ deref s' p = Some v)
  ∧ ((n ≤ i)%N → get array i s = Ret NULL s ∧ set array i v s = Ret false s).
Proof.
  intros (a & d & -> & Hl)%contents_laid_out Hn.
  rewrite (size_laid_out _ _ _ _ Hl) in Hn. injection Hn as <-.
  split.
  - intros Hi. pose proof (written_laid_out _ _ _ _ i v Hl) as Hl'.
    exists (written s d l i v), (Some (d, i)).
    split; [by apply set_in|]. split.
    + apply (get_in _ _ _ _ _ Hl'). by rewrite length_insert.
    + rewrite (deref_laid_out _ _ _ _ _ Hl').
      apply list_lookup_insert_eq. lia.
  - intros Hi. split; [by eapply get_out | by eapply set_out].
Qed.

(** C10: on an array of size [n] and for [i < n], [set(a, i, v)]
    changes slot [i] only: [size] still answers [n], and for every
    other index [j < n] the call [get(a, j)] returns the same pointer,
    reading the same value, before and after. *)
Theorem set_changes_one_slot s array l n i v :
  contents s array = Some l → size array s = Ret n s → (i < n)%N →
  ∃ s', set array i v s = Ret true s'
    ∧ size array s' = Ret n s'
    ∧ ∀ j, (j < n)%N → j ≠ i →
        ∃ p x, get array j s = Ret p s ∧ get array j s' = Ret p s'
          ∧ deref s p = Some x ∧ deref s' p = Some x.
Proof.
  intros (a & d & -> & Hl)%contents_laid_out Hn Hi.
  rewrite (size_laid_out _ _ _ _ Hl) in Hn. injection Hn as <-.
  pose proof (written_laid_out _ _ _ _ i v Hl) as Hl'.
  exists (written s d l i v). split; [by apply set_in|]. split.
  - rewrite (size_laid_out _ _ _ _ Hl'). by rewrite length_insert.
  - intros j Hj Hji.
    destruct (lookup_lt_is_Some_2 l (N.to_nat j)) as [x Hx]; [lia|].
    exists (Some (d, j)), x. split; [by apply (get_in _ _ _ _ _ Hl)|].
    split; [apply (get_in _ _ _ _ _ Hl'); by rewrite length_insert|].
    split; [by rewrite (deref_laid_out _ _ _ _ _ Hl)|].
    rewrite (deref_laid_out _ _ _ _ _ Hl').
    rewrite list_lookup_insert_ne; [done|]. lia.
Qed.
End Generic.

End ArraySpec.

(** The array properties at the heap of array/main.c. *)

Module ArrayDemo.
Import Mem Mem.Notations Array Demo.

Example main_builds_five_names :
  (a <- new 5 ;;
   _ <- set a 0 (Some "Alice") ;;
   _ <- set a 1 (Some "Bob") ;;
   _ <- set a 2 (Some "Charlie") ;;
   _ <- set a 3 (Some "Diana") ;;
   _ <- set a 4 (Some "Eve") ;;
   ret a) (boot [true; true]) = Ret (Some 1%positive) five_names.
Proof. reflexivity. Qed.

Lemma new_size_and_zero_slots_witness :
  oracle (boot (B := block str) [true; true]) = [true; true]
  ∧ ∃ a s', new 3 (boot [true; true]) = Ret (Some a) s'
      ∧ size (Some a) s' = Ret 3%N s'
      ∧ ∀ i, (i < 3)%N →
          ∃ p, get (Some a) i s' = Ret p s' ∧ deref s' p = Some (zero : str).
Proof.
  split; [reflexivity|].
  apply (ArraySpec.new_size_and_zero_slots (boot [true; true]) 3 []).
  reflexivity.
Defined.

Lemma set_get_in_and_out_of_range_witness :
  (∃ s' p, set (Some 1%positive) 2 (Some "Carol") five_names = Ret true s'
     ∧ get (Some 1%positive) 2 s' = Ret p s' ∧ deref s' p = Some (Some "Carol"))
  ∧ (get (Some 1%positive) 5 five_names = Ret NULL five_names
     ∧ set (Some 1%positive) 5 (Some "Frank") five_names = Ret false five_names).
Proof.
  split.
  - apply (ArraySpec.set_get_in_and_out_of_range
             five_names (Some 1%positive) names 5 2 (Some "Carol"));
      reflexivity.
  - apply (ArraySpec.set_get_in_and_out_of_range
             five_names (Some 1%positive) names 5 5 (Some "Frank"));
      [reflexivity | reflexivity | lia].
Defined.

Lemma set_changes_one_slot_witness :
  ∃ s', set (Some 1%positive) 2 (Some "Carol") five_names = Ret true s'
    ∧ size (Some 1%positive) s' = Ret 5%N s'
    ∧ ∀ j, (j < 5)%N → j ≠ 2%N →
        ∃ p x, get (Some 1%positive) j five_names = Ret p five_names
          ∧ get (Some 1%positive) j s' = Ret p s'
          ∧ deref five_names p = Some x ∧ deref s' p = Some x.
Proof.
  apply (ArraySpec.set_changes_one_slot
           five_names (Some 1%positive) names 5 2 (Some "Carol"));
    reflexivity.
Defined.

(** C1: after [set(a, 1, "Bob")], the pointer that
    [replace(a, 1, "Robert")] returns reads "Robert", the new value, and
    not "Bob", the value the slot held before the call. *)
Theorem replace_result_reads_new_value :
  ∃ s1 s2 p,
    set (Some 1%positive) 1 (Some "Bob") five_names = Ret true s1
    ∧ replace (Some 1%positive) 1 (Some "Robert") s1 = Ret p s2
    ∧ deref s1 p = Some (Some "Bob")
    ∧ deref s2 p = Some (Some "Robert")
    ∧ deref s2 p ≠ Some (Some "Bob").
Proof.
  destruct (ArraySpec.replace_after_set five_names (Some 1%positive) names 1
              (Some "Bob") (Some "Robert") eq_refl eq_refl)
    as (s1 & s2 & p & Hs & Hr & H1 & H2 & _).
  exists s1, s2, p. split_and!; [done..|].
  unfold str in *. congruence.
Qed.

End ArrayDemo.

(** * Properties of result.h *)

Module ResultSpec.
Import Mem Mem.Notations Result Demo.

Section Generic.
Context {T E : Type}.
Implicit Types (s : state (block T E)) (result : ptr) (v : T) (e : E).

Ltac step :=
  unfold success, fail, delete, is_ok, is_err, value, error, value_or,
    error_or, value_or_else, error_or_else, bind, ret, nonnull,
    load_is_ok, addr_ok, addr_err; simpl;
  repeat match goal with
    | H : blocks ?s !! ?a = _ |- context [blocks ?s !! ?a] => rewrite H; simpl
    end.

Lemma view_inl s result v :
  view s result = Some (inl v) →
  ∃ r, result = Some r
    ∧ blocks s !! r = Some (Obj {| _is_ok := Some true; _ok_err := Some (inl v) |}).
Proof.
  unfold view. intros Hv. destruct result as [r|]; [|done].
  destruct (blocks s !! r) as [[[[[]|] [[]|]]| |]|] eqn:Hr; simplify_eq; eauto.
Qed.

Lemma view_inr s result e :
  view s result = Some (inr e) →
  ∃ r, result = Some r
    ∧ blocks s !! r = Some (Obj {| _is_ok := Some false; _ok_err := Some (inr e) |}).
Proof.
  unfold view. intros Hv. destruct result as [r|]; [|done].
  destruct (blocks s !! r) as [[[[[]|] [[]|]]| |]|] eqn:Hr; simplify_eq; eauto.
Qed.

(** A record whose discriminant can be read. *)
Lemma is_ok_readable s result b :
  result ≠ NULL → is_ok result s = Ret b s →
  ∃ r u, result = Some r ∧ blocks s !! r = Some (Obj {| _is_ok := Some b; _ok_err := u |}).
Proof.
  intros Hnn. destruct result as [r|]; [|done]. step.
  destruct (blocks s !! r) as [[[[b'|] u]| |]|] eqn:Hr; try done.
  intros [= ->]. eauto.
Qed.

Lemma success_view s o v :
  oracle s = true :: o →
  ∃ r s', success v s = Ret (Some r) s' ∧ view s' (Some r) = Some (inl v).
Proof.
  intros Ho. unfold success, malloc_Self, alloc, bind, ret. rewrite Ho. simpl.
  unfold store_is_ok, store_ok, store_union. simpl.
  rewrite lookup_insert_eq. simpl. rewrite lookup_insert_eq. simpl.
  eexists _, _. split; [reflexivity|].
  unfold view. simpl. by rewrite lookup_insert_eq.
Qed.

Lemma fail_view s o e :
  oracle s = true :: o →
  ∃ r s', fail e s = Ret (Some r) s' ∧ view s' (Some r) = Some (inr e).
Proof.
  intros Ho. unfold fail, malloc_Self, alloc, bind, ret. rewrite Ho. simpl.
  unfold store_is_ok, store_err, store_union. simpl.
  rewrite lookup_insert_eq. simpl. rewrite lookup_insert_eq. simpl.
  eexists _, _. split; [reflexivity|].
  unfold view. simpl. by rewrite lookup_insert_eq.
Qed.

(** A refused allocation: both constructors return NULL and touch
    nothing but the allocator. *)
Lemma success_refused s v :
  head (oracle s) ≠ Some true →
  ∃ s', success v s = Ret NULL s' ∧ blocks s' = blocks s.
Proof.
  intros Ho. unfold success, malloc_Self, alloc, bind, ret.
  destruct (oracle s) as [|[] o]; simpl in *; try done; eauto.
Qed.

Lemma fail_refused s e :
  head (oracle s) ≠ Some true →
  ∃ s', fail e s = Ret NULL s' ∧ blocks s' = blocks s.
Proof.
  intros Ho. unfold fail, malloc_Self, alloc, bind, ret.
  destruct (oracle s) as [|[] o]; simpl in *; try done; eauto.
Qed.

Lemma result_delete_null s : delete NULL s = Ret (Some false) s.
Proof. done. Qed.

(** On a live record [delete] frees it and then runs off the end of
    its body: the call yields no value at all. *)
Lemma result_delete_live s r b :
  blocks s !! r = Some b →
  delete (Some r) s
  = Ret None (State (base.delete r (blocks s)) (oracle s) (calls s)).
Proof. intros Hr. unfold delete, bind, ret, free. simpl. by rewrite Hr. Qed.

Lemma is_ok_success s result v :
  view s result = Some (inl v) → is_ok result s = Ret true s.
Proof. intros (r & -> & Hr)%view_inl. by step. Qed.

Lemma is_ok_fail s result e :
  view s result = Some (inr e) → is_ok result s = Ret false s.
Proof. intros (r & -> & Hr)%view_inr. by step. Qed.

Lemma value_success s result v :
  view s result = Some (inl v) →
  ∃ p, value result s = Ret p s ∧ derefT s p = Some v.
Proof.
  intros (r & -> & Hr)%view_inl. exists (Some (ok_of r)).
  split; [by step|]. unfold derefT. by rewrite Hr.
Qed.

Lemma error_fail s result e :
  view s result = Some (inr e) →
  ∃ p, error result s = Ret p s ∧ derefE s p = Some e.
Proof.
  intros (r & -> & Hr)%view_inr. exists (Some (err_of r)).
  split; [by step|]. unfold derefE. by rewrite Hr.
Qed.

(** C5: when the allocator grants the request, [success(v)] yields a
    Result on which [is_ok] is true and [value] points to [v], and
    [fail(e)] yields a Result on which [is_ok] is false and [error]
    points to [e]. *)
Theorem success_and_fail_construct s o v e :
  oracle s = true :: o →
  (∃ r s', success v s = Ret (Some r) s'
     ∧ is_ok (Some r) s' = Ret true s'
     ∧ ∃ p, value (Some r) s' = Ret p s' ∧ derefT s' p = Some v)
  ∧ (∃ r s', fail e s = Ret (Some r) s'
     ∧ is_ok (Some r) s' = Ret false s'
     ∧ ∃ p, error (Some r) s' = Ret p s' ∧ derefE s' p = Some e).
Proof.
  intros Ho. split.
  - destruct (success_view s o v Ho) as (r & s' & Hs & Hv).
    exists r, s'. split; [done|]. split.
    + by eapply is_ok_success.
    + by apply value_success.
  - destruct (fail_view s o e Ho) as (r & s' & Hs & Hv).
    exists r, s'. split; [done|]. split.
    + by eapply is_ok_fail.
    + by apply error_fail.
Qed.

(** C6: on a non-null Result, taken by what its record stores (the
    sum [u] it stands for), [value] returns a pointer exactly when the
    record stores a success and [error] returns one exactly when it
    stores a failure, so exactly one of the two is present, never both
    and never neither; the pointer that is present reads the stored
    payload. *)
Theorem value_xor_error s result u :
  view s result = Some u →
  ∃ pv pe, value result s = Ret pv s ∧ error result s = Ret pe s
    ∧ (is_Some pv ↔ ∃ v, u = inl v)
    ∧ (is_Some pe ↔ ∃ e, u = inr e)
    ∧ (is_Some pv ↔ pe = None)
    ∧ (is_Some pe ↔ pv = None)
    ∧ (∀ v, u = inl v → derefT s pv = Some v)
    ∧ (∀ e, u = inr e → derefE s pe = Some e).
Proof.
  intros Hv. destruct u as [v|e].
  - apply view_inl in Hv as (r & -> & Hr).
    exists (Some (ok_of r)), None. split_and!.
    all: try by step.
    all: try (split; solve [done | by eexists | by intros [? ?]]).
    all: try (by intros ?).
    intros v' [= <-]. unfold derefT. by rewrite Hr.
  - apply view_inr in Hv as (r & -> & Hr).
    exists None, (Some (err_of r)). split_and!.
    all: try by step.
    all: try (split; solve [done | by eexists | by intros [? ?]]).
    all: try (by intros ?).
    intros e' [= <-]. unfold derefE. by rewrite Hr.
Qed.

Lemma value_or_null s (fallback : Tptr) : value_or NULL fallback s = Ret NULL s.
Proof. done. Qed.

Lemma error_or_null s (fallback : Eptr) : error_or NULL fallback s = Ret NULL s.
Proof. done. Qed.

(** C2, as the code has it: in success state [value_or] returns a
    pointer to the success value and [error_or] returns its fallback;
    in error state [value_or] returns its fallback and [error_or] a
    pointer to the error value; on a null Result both return NULL,
    whatever the fallback. *)
Theorem value_or_error_or s result (fT : Tptr) (fE : Eptr) :
  (∀ v, view s result = Some (inl v) →
     (∃ p, value_or result fT s = Ret p s ∧ derefT s p = Some v)
     ∧ error_or result fE s = Ret fE s)
  ∧ (∀ e, view s result = Some (inr e) →
     value_or result fT s = Ret fT s
     ∧ ∃ p, error_or result fE s = Ret p s ∧ derefE s p = Some e)
  ∧ (result = NULL →
     value_or result fT s = Ret NULL s ∧ error_or result fE s = Ret NULL s).
Proof.
  split_and!.
  - intros v (r & -> & Hr)%view_inl. split; [|by step].
    exists (Some (ok_of r)). split; [by step|].
    unfold derefT. by rewrite Hr.
  - intros e (r & -> & Hr)%view_inr. split; [by step|].
    exists (Some (err_of r)). split; [by step|].
    unfold derefE. by rewrite Hr.
  - by intros ->.
Qed.

(** C7: in success state [value_or_else] returns a pointer to the
    success value and leaves the whole state, call counter included,
    as it was: the supplier is not run.  The supplier is called, once,
    only on a non-null Result in error state; a null Result yields
    NULL without a call. *)
Theorem value_or_else_lazy s result (or_else : M (block T E) Tptr) :
  (∀ v, view s result = Some (inl v) →
     ∃ p, value_or_else result or_else s = Ret p s ∧ derefT s p = Some v)
  ∧ (∀ p s', result ≠ NULL → is_ok result s = Ret true s →
     value_or_else result or_else s = Ret p s' → s' = s ∧ calls s' = calls s)
  ∧ (result ≠ NULL → is_ok result s = Ret false s →
     value_or_else result or_else s = call or_else s)
  ∧ (result = NULL → value_or_else result or_else s = Ret NULL s).
Proof.
  split_and!.
  - intros v (r & -> & Hr)%view_inl.
    exists (Some (ok_of r)). split; [by step|].
    unfold derefT. by rewrite Hr.
  - intros p s' Hnn Hok.
    destruct (is_ok_readable s result true Hnn Hok) as (r & u & -> & Hr).
    step. by intros [= _ ->].
  - intros Hnn Hok.
    destruct (is_ok_readable s result false Hnn Hok) as (r & u & -> & Hr).
    by step.
  - by intros ->.
Qed.
End Generic.

End ResultSpec.

(** The result properties at the heap of result/main.c. *)

Module ResultDemo.
Import Mem Mem.Notations Result Demo.

Example main_builds_outcomes :
  ∃ s, (valid <- success (Some "Operation succeeded") ;;
        invalid <- fail (Some "Operation failed") ;;
        ret (valid, invalid)) (boot [true; true])
       = Ret (Some 1%positive, Some 2%positive) s
    ∧ view s (Some 1%positive) = view outcomes (Some 1%positive)
    ∧ view s (Some 2%positive) = view outcomes (Some 2%positive).
Proof. eexists. split; [reflexivity|]. split; reflexivity. Qed.

Lemma success_and_fail_construct_witness :
  oracle (boot (B := block str ExitCode) [true]) = [true]
  ∧ (∃ r s', success (E := ExitCode) (Some "ls -l") (boot [true]) = Ret (Some r) s'
       ∧ is_ok (Some r) s' = Ret true s'
       ∧ ∃ p, value (Some r) s' = Ret p s' ∧ derefT s' p = Some (Some "ls -l"))
  ∧ (∃ r s', fail (T := str) COMMAND_NOT_FOUND (boot [true]) = Ret (Some r) s'
       ∧ is_ok (Some r) s' = Ret false s'
       ∧ ∃ p, error (Some r) s' = Ret p s' ∧ derefE s' p = Some COMMAND_NOT_FOUND).
Proof.
  split; [reflexivity|].
  apply (ResultSpec.success_and_fail_construct
           (boot [true]) [] (Some "ls -l") COMMAND_NOT_FOUND).
  reflexivity.
Defined.

Lemma value_xor_error_witness :
  (∃ pv pe, value (Some 1%positive) outcomes = Ret pv outcomes
     ∧ error (Some 1%positive) outcomes = Ret pe outcomes
     ∧ (is_Some pv ↔ ∃ v, (inl (Some "Operation succeeded") : str + str) = inl v)
     ∧ (is_Some pe ↔ ∃ e : str, (inl (Some "Operation succeeded") : str + str) = inr e)
     ∧ (is_Some pv ↔ pe = None)
     ∧ (is_Some pe ↔ pv = None)
     ∧ (∀ v, (inl (Some "Operation succeeded") : str + str) = inl v → derefT outcomes pv = Some v)
     ∧ (∀ e : str, (inl (Some "Operation succeeded") : str + str) = inr e
          → derefE outcomes pe = Some e))
  ∧ (∃ pv pe, value (Some 2%positive) outcomes = Ret pv outcomes
     ∧ error (Some 2%positive) outcomes = Ret pe outcomes
     ∧ (is_Some pv ↔ ∃ v : str, (inr (Some "Operation failed") : str + str) = inl v)
     ∧ (is_Some pe ↔ ∃ e, (inr (Some "Operation failed") : str + str) = inr e)
     ∧ (is_Some pv ↔ pe = None)
     ∧ (is_Some pe ↔ pv = None)
     ∧ (∀ v : str, (inr (Some "Operation failed") : str + str) = inl v
          → derefT outcomes pv = Some v)
     ∧ (∀ e, (inr (Some "Operation failed") : str + str) = inr e → derefE outcomes pe = Some e)).
Proof.
  split.
  - apply (ResultSpec.value_xor_error outcomes (Some 1%positive)
             (inl (Some "Operation succeeded"))).
    reflexivity.
  - apply (ResultSpec.value_xor_error outcomes (Some 2%positive)
             (inr (Some "Operation failed"))).
    reflexivity.
Defined.

(** C2, counterexample: on a null Result [value_or] and [error_or]
    return NULL, not the fallback they were given. *)
Lemma value_or_null_is_not_fallback :
  value_or NULL (Some (at_T 3%positive)) outcomes = Ret NULL outcomes
  ∧ value_or NULL (Some (at_T 3%positive)) outcomes
      ≠ Ret (Some (at_T 3%positive)) outcomes
  ∧ error_or NULL (Some (at_E 4%positive)) outcomes = Ret NULL outcomes
  ∧ error_or NULL (Some (at_E 4%positive)) outcomes
      ≠ Ret (Some (at_E 4%positive)) outcomes.
Proof. split_and!; [reflexivity | discriminate | reflexivity | discriminate]. Qed.

Lemma value_or_error_or_witness :
  ((∃ p, value_or (Some 1%positive) (Some (at_T 3%positive)) outcomes = Ret p outcomes
      ∧ derefT outcomes p = Some (Some "Operation succeeded"))
   ∧ error_or (Some 1%positive) (Some (at_E 4%positive)) outcomes
     = Ret (Some (at_E 4%positive)) outcomes)
  ∧ (value_or (Some 2%positive) (Some (at_T 3%positive)) outcomes
     = Ret (Some (at_T 3%positive)) outcomes
     ∧ ∃ p, error_or (Some 2%positive) (Some (at_E 4%positive)) outcomes = Ret p outcomes
         ∧ derefE outcomes p = Some (Some "Operation failed"))
  ∧ (value_or NULL (Some (at_T 3%positive)) outcomes = Ret NULL outcomes
     ∧ error_or NULL (Some (at_E 4%positive)) outcomes = Ret NULL outcomes).
Proof.
  split; [|split].
  - apply (ResultSpec.value_or_error_or outcomes (Some 1%positive)
             (Some (at_T 3%positive)) (Some (at_E 4%positive))).
    reflexivity.
  - apply (ResultSpec.value_or_error_or outcomes (Some 2%positive)
             (Some (at_T 3%positive)) (Some (at_E 4%positive))).
    reflexivity.
  - apply (ResultSpec.value_or_error_or outcomes NULL
             (Some (at_T 3%positive)) (Some (at_E 4%positive))).
    reflexivity.
Defined.

Lemma value_or_else_lazy_witness :
  (∃ p, value_or_else (Some 1%positive) trap outcomes = Ret p outcomes
     ∧ derefT outcomes p = Some (Some "Operation succeeded"))
  ∧ (∀ p s', value_or_else (Some 1%positive) default_supplier outcomes = Ret p s' →
       s' = outcomes ∧ calls s' = calls outcomes)
  ∧ value_or_else (Some 2%positive) default_supplier outcomes
    = call default_supplier outcomes
  ∧ value_or_else NULL default_supplier outcomes = Ret NULL outcomes.
Proof.
  split; [|split; [|split]].
  - apply (ResultSpec.value_or_else_lazy outcomes (Some 1%positive) trap).
    reflexivity.
  - intros p s'.
    apply (ResultSpec.value_or_else_lazy outcomes (Some 1%positive) default_supplier);
      [discriminate | reflexivity].
  - apply (ResultSpec.value_or_else_lazy outcomes (Some 2%positive) default_supplier);
      [discriminate | reflexivity].
  - apply (ResultSpec.value_or_else_lazy outcomes NULL default_supplier).
    reflexivity.
Defined.

End ResultDemo.

(** * Construction and release, the two headers side by side *)

Module Lifecycle.
Import Mem Mem.Notations Demo.

(** C3: on a null reference both [delete] functions return false and
    leave the heap alone, and [Array.delete] returns true after freeing
    the backing store and the record; [Result.delete] frees the record
    but then returns no value, where true was to be returned. *)
Theorem result_delete_yields_no_value :
  Result.delete (Some 1%positive) outcomes
    = Ret None (State (delete 1%positive (blocks outcomes)) [] 0)
  ∧ Result.delete (Some 1%positive) outcomes
      ≠ Ret (Some true) (State (delete 1%positive (blocks outcomes)) [] 0)
  ∧ Array.delete (Some 1%positive) five_names = Ret true (State ∅ [] 0)
  ∧ Result.delete (T := str) (E := str) NULL outcomes = Ret (Some false) outcomes
  ∧ Array.delete NULL five_names = Ret false five_names.
Proof.
  split_and!; [reflexivity | discriminate | reflexivity | reflexivity | reflexivity].
Qed.

(** C4: when the allocator refuses the record, [Result.success] and
    [Result.fail] return NULL, but [Array.new] stores through the null
    pointer it received; when only the backing store is refused,
    [Array.new] still returns a record of the requested size and the
    first [get] goes wrong. *)
Theorem array_new_ignores_refused_allocation :
  Array.new (T := str) 5 (boot [false]) = Fault
  ∧ Array.new (T := str) 5 (boot []) = Fault
  ∧ Result.success (E := str) (Some "Operation succeeded") (boot [false])
      = Ret NULL (boot [])
  ∧ Result.fail (T := str) COMMAND_NOT_FOUND (boot [false]) = Ret NULL (boot [])
  ∧ ∃ s, Array.new (T := str) 5 (boot [true; false]) = Ret (Some 1%positive) s
      ∧ Array.size (Some 1%positive) s = Ret 5%N s
      ∧ Array.get (Some 1%positive) 1 s = Fault.
Proof.
  split_and!; try reflexivity.
  eexists. split_and!; reflexivity.
Qed.

End Lifecycle.

(** * Further laws of array.h: updates, release, separation *)

Module ArrayLaws.
Import Mem Mem.Notations Array Demo.

Section Generic.
Context {T : Type} `{Zero T}.
Implicit Types (s : state (block T)) (array : ptr) (l : list T) (i n : N) (v : T).

Ltac run :=
  unfold new, delete, get, set, replace, size, malloc_Self, calloc, alloc,
    free, bind, ret, nonnull, load_size, load_data, store_data, store_size,
    elem_addr, store_elem; simpl;
  repeat match goal with
    | E : blocks ?s !! ?a = _ |- context [blocks ?s !! ?a] => rewrite E; simpl
    | E : oracle ?s = _ |- context [oracle ?s] => rewrite E; simpl
    | E : (?i <? ?n)%N = _ |- context [(?i <? ?n)%N] => rewrite E; simpl
    end.

(** X1: [set] at an index in range keeps the array well formed and
    replaces exactly that element of its contents; the allocator and
    the call counter are not touched. *)
Theorem set_updates_contents s array l i v :
  contents s array = Some l → (i < N.of_nat (length l))%N →
  ∃ s', set array i v s = Ret true s'
    ∧ contents s' array = Some (<[N.to_nat i := v]> l)
    ∧ oracle s' = oracle s ∧ calls s' = calls s.
Proof.
  intros (a & d & -> & Hl)%ArraySpec.contents_laid_out Hi.
  exists (written s d l i v). split; [by apply ArraySpec.set_in|].
  split; [|done].
  apply ArraySpec.laid_out_contents with d.
  by apply ArraySpec.written_laid_out.
Qed.

(** X2: in range, [replace] returns the non-null pointer [get] returns
    and leaves the state [set] leaves; out of range it returns NULL and
    changes nothing. *)
Theorem replace_is_get_then_set s array l i v :
  contents s array = Some l →
  ((i < N.of_nat (length l))%N →
     ∃ s' p, replace array i v s = Ret (Some p) s'
       ∧ get array i s = Ret (Some p) s
       ∧ set array i v s = Ret true s')
  ∧ ((N.of_nat (length l) ≤ i)%N → replace array i v s = Ret NULL s).
Proof.
  intros (a & d & -> & Hl)%ArraySpec.contents_laid_out. split.
  - intros Hi. exists (written s d l i v), (d, i). split_and!.
    + by apply ArraySpec.replace_in.
    + by eapply ArraySpec.get_in.
    + by apply ArraySpec.set_in.
  - intros Hi%N.ltb_ge. destruct Hl as [Ha Hd]. by run.
Qed.

(** X3: a null array is a defined input of every function: [get] and
    [replace] return NULL, [set] and [delete] return false, [size]
    returns 0, and none of them changes the state. *)
Theorem null_array_is_harmless s i v :
  get NULL i s = Ret NULL s
  ∧ set NULL i v s = Ret false s
  ∧ replace NULL i v s = Ret NULL s
  ∧ size NULL s = Ret 0%N s
  ∧ delete NULL s = Ret false s.
Proof. by split_and!. Qed.

(** X4: once the record is granted, [delete] after [new] gives back
    every block [new] took, whether the backing store was granted or
    refused: the heap holds what it held before. *)
Theorem new_then_delete_restores s n b o :
  oracle s = true :: b :: o →
  ∃ a s1 s2, new n s = Ret (Some a) s1
    ∧ delete (Some a) s1 = Ret true s2
    ∧ blocks s2 = blocks s ∧ oracle s2 = o.
Proof.
  intros Ho.
  set (a := fresh (dom (blocks s))).
  assert (Ha : blocks s !! a = None).
  { apply not_elem_of_dom, is_fresh. }
  destruct b.
  - set (m1 := <[a := Obj {| data := None; _size := None |}]> (blocks s)).
    set (d := fresh (dom m1)).
    assert (Hd : m1 !! d = None) by apply not_elem_of_dom, is_fresh.
    assert (Hne : d ≠ a).
    { intros Heq. rewrite Heq in Hd. unfold m1 in Hd.
      by rewrite lookup_insert_eq in Hd. }
    assert (Hd' : blocks s !! d = None).
    { unfold m1 in Hd. by rewrite lookup_insert_ne in Hd. }
    exists a. unfold new, malloc_Self, calloc, alloc, bind, ret.
    rewrite Ho. simpl. fold a. fold m1. fold d.
    unfold store_data, store_size. simpl.
    rewrite lookup_insert_ne by done. unfold m1 at 1.
    rewrite lookup_insert_eq. simpl. rewrite lookup_insert_eq. simpl.
    eexists _, _. split; [reflexivity|].
    unfold delete, bind, ret, load_data, free. simpl.
    rewrite lookup_insert_eq. simpl.
    rewrite !lookup_insert_ne by done. rewrite lookup_insert_eq. simpl.
    rewrite lookup_delete_ne by done. rewrite lookup_insert_eq. simpl.
    split; [reflexivity|]. split; [|done]. simpl.
    apply map_eq. intros k.
    destruct (decide (k = a)) as [->|Hka].
    { by rewrite lookup_delete_eq. }
    rewrite lookup_delete_ne by done.
    destruct (decide (k = d)) as [->|Hkd].
    { by rewrite lookup_delete_eq. }
    rewrite lookup_delete_ne by done.
    rewrite !lookup_insert_ne by done. unfold m1.
    by rewrite !lookup_insert_ne by done.
  - exists a. unfold new, malloc_Self, calloc, alloc, bind, ret.
    rewrite Ho. simpl. fold a.
    unfold store_data, store_size. simpl.
    rewrite lookup_insert_eq. simpl. rewrite lookup_insert_eq. simpl.
    eexists _, _. split; [reflexivity|].
    unfold delete, bind, ret, load_data, free. simpl.
    rewrite lookup_insert_eq. simpl. rewrite lookup_insert_eq. simpl.
    split; [reflexivity|]. split; [|done]. simpl.
    apply map_eq. intros k.
    destruct (decide (k = a)) as [->|Hka].
    { by rewrite lookup_delete_eq. }
    rewrite lookup_delete_ne by done.
    by rewrite !lookup_insert_ne by done.
Qed.

(** X5: the null guard of [delete] does not protect a handle that was
    already deleted: after a successful [delete] both blocks are gone,
    and a second [delete], like [get], [set], [replace] and [size], goes
    wrong on the stale handle. *)
Theorem deleted_handle_goes_wrong s array l i v :
  contents s array = Some l →
  ∃ s', delete array s = Ret true s'
    ∧ contents s' array = None
    ∧ delete array s' = Fault
    ∧ get array i s' = Fault
    ∧ set array i v s' = Fault
    ∧ replace array i v s' = Fault
    ∧ size array s' = Fault.
Proof.
  intros (a & d & -> & Hl)%ArraySpec.contents_laid_out.
  exists (released s a d). split; [by eapply ArraySpec.array_delete_laid_out|].
  split_and!; unfold contents; run; by rewrite lookup_delete_eq.
Qed.

(** X6: [new] never disturbs an array that already exists: whenever it
    returns, the handle it returns differs from the existing one, and
    the existing array has the contents it had. *)
Theorem new_keeps_other_arrays s n other l array s' :
  contents s other = Some l → new n s = Ret array s' →
  array ≠ other ∧ array ≠ NULL ∧ contents s' other = Some l.
Proof.
  intros (b & db & -> & Hl)%ArraySpec.contents_laid_out.
  pose proof (ArraySpec.laid_out_ne _ _ _ _ Hl) as Hbd.
  destruct Hl as [Hb Hdb].
  set (a := fresh (dom (blocks s))).
  assert (Ha : blocks s !! a = None) by apply not_elem_of_dom, is_fresh.
  assert (Hab : a ≠ b) by (intros ->; congruence).
  assert (Hadb : a ≠ db) by (intros ->; congruence).
  destruct (oracle s) as [|[] [|[] o]] eqn:Ho;
    unfold new, malloc_Self, calloc, alloc, bind, ret;
    repeat (rewrite Ho; simpl); fold a;
    unfold store_data, store_size; simpl;
    rewrite ?lookup_insert_eq; simpl; rewrite ?lookup_insert_eq; simpl;
    try discriminate.
  - (* the record is granted, the allocator has no further answer *)
    intros [= <- <-]. split_and!; [congruence | done |].
    apply ArraySpec.laid_out_contents with db. split; simpl.
    + by rewrite !lookup_insert_ne by done.
    + by rewrite !lookup_insert_ne by done.
  - (* both granted *)
    set (m1 := <[a := Obj {| data := None; _size := None |}]> (blocks s)).
    set (d := fresh (dom m1)).
    assert (Hd : m1 !! d = None) by apply not_elem_of_dom, is_fresh.
    assert (Hda : d ≠ a).
    { intros Heq. rewrite Heq in Hd. unfold m1 in Hd.
      by rewrite lookup_insert_eq in Hd. }
    assert (Hd' : blocks s !! d = None).
    { unfold m1 in Hd. by rewrite lookup_insert_ne in Hd. }
    assert (Hdb' : d ≠ b) by (intros ->; congruence).
    assert (Hddb : d ≠ db) by (intros ->; congruence).
    rewrite lookup_insert_ne by done. unfold m1 at 1.
    rewrite lookup_insert_eq. simpl. rewrite lookup_insert_eq. simpl.
    intros [= <- <-]. split_and!; [congruence | done |].
    apply ArraySpec.laid_out_contents with db. unfold m1. split; simpl.
    + by rewrite !lookup_insert_ne by done.
    + by rewrite !lookup_insert_ne by done.
  - (* the record is granted, the backing store refused *)
    intros [= <- <-]. split_and!; [congruence | done |].
    apply ArraySpec.laid_out_contents with db. split; simpl.
    + by rewrite !lookup_insert_ne by done.
    + by rewrite !lookup_insert_ne by done.
Qed.

(** X7: [set] on one array leaves every array with another backing
    store as it was, whatever the index and whatever [set] returns. *)
Theorem set_keeps_other_arrays s a da la b db lb i v r s' :
  laid_out s a da la → laid_out s b db lb → da ≠ db →
  set (Some a) i v s = Ret r s' →
  contents s' (Some b) = Some lb.
Proof.
  intros Hla Hlb Hne.
  destruct (N.ltb_spec i (N.of_nat (length la))) as [Hi|Hi].
  - rewrite (ArraySpec.set_in _ _ _ _ _ v Hla Hi). intros [= _ <-].
    apply ArraySpec.laid_out_contents with db.
    destruct Hla as [Ha Hda], Hlb as [Hb Hdb]. split; simpl.
    + rewrite lookup_insert_ne; [done|]. intros ->. congruence.
    + by rewrite lookup_insert_ne.
  - rewrite (ArraySpec.set_out _ _ _ _ _ v Hla Hi). intros [= _ <-].
    by apply ArraySpec.laid_out_contents with db.
Qed.
End Generic.

End ArrayLaws.

(** * Further laws of result.h: dispatch, laziness, release, separation *)

Module ResultLaws.
Import Mem Mem.Notations Result Demo.

Section Generic.
Context {T E : Type}.
Implicit Types (s : state (block T E)) (result : ptr) (v : T) (e : E).

Ltac run :=
  unfold success, fail, delete, is_ok, is_err, value, error, value_or,
    error_or, value_or_else, error_or_else, match_, malloc_Self, alloc, free,
    bind, ret, nonnull, load_is_ok, load_ok, load_err, addr_ok, addr_err,
    store_is_ok, store_ok, store_err, store_union; simpl;
  repeat match goal with
    | H : blocks ?s !! ?a = _ |- context [blocks ?s !! ?a] => rewrite H; simpl
    | H : oracle ?s = _ |- context [oracle ?s] => rewrite H; simpl
    end.

(** X8: [match] calls exactly one handler, once: the success handler
    with the stored value in success state, the failure handler with
    the stored error in error state; on a null Result it calls neither
    and changes nothing. *)
Theorem match_dispatches s result
    (then_ : T → M (block T E) unit) (or_else : E → M (block T E) unit) :
  (∀ v, view s result = Some (inl v) →
     match_ result then_ or_else s = call (then_ v) s)
  ∧ (∀ e, view s result = Some (inr e) →
     match_ result then_ or_else s = call (or_else e) s)
  ∧ (result = NULL → match_ result then_ or_else s = Ret tt s).
Proof.
  split_and!.
  - intros v (r & -> & Hr)%ResultSpec.view_inl. by run.
  - intros e (r & -> & Hr)%ResultSpec.view_inr. by run.
  - by intros ->.
Qed.

(** X9: [error_or_else] mirrors [value_or_else]: in error state it
    returns a pointer to the error and does not run the supplier; the
    supplier is called, once, only on a non-null Result in success
    state; a null Result yields NULL without a call. *)
Theorem error_or_else_lazy s result (or_else : M (block T E) Eptr) :
  (∀ e, view s result = Some (inr e) →
     ∃ p, error_or_else result or_else s = Ret p s ∧ derefE s p = Some e)
  ∧ (result ≠ NULL → is_ok result s = Ret true s →
     error_or_else result or_else s = call or_else s)
  ∧ (result = NULL → error_or_else result or_else s = Ret NULL s).
Proof.
  split_and!.
  - intros e (r & -> & Hr)%ResultSpec.view_inr.
    exists (Some (err_of r)). split; [by run|].
    unfold derefE. by rewrite Hr.
  - intros Hnn Hok.
    destruct (ResultSpec.is_ok_readable s result true Hnn Hok) as (r & u & -> & Hr).
    by run.
  - by intros ->.
Qed.

(** X10: [is_err] is the negation of [is_ok] on every non-null Result
    whose discriminant can be read, but not on a null one, where both
    answer false. *)
Theorem is_err_against_is_ok s result :
  (result = NULL → is_ok result s = Ret false s ∧ is_err result s = Ret false s)
  ∧ (∀ b, result ≠ NULL →
       (is_ok result s = Ret b s ↔ is_err result s = Ret (negb b) s)).
Proof.
  split.
  - by intros ->.
  - intros b Hnn. destruct result as [r|]; [|done]. run.
    destruct (blocks s !! r) as [[[[b'|] u]| |]|]; try done.
    split; intros [= Hb].
    + by rewrite Hb.
    + by destruct b, b'.
Qed.

(** X11: when the allocator grants the record, [delete] after
    [success] (or after [fail]) gives the block back, so the heap holds
    what it held before; [delete] yields no return value on that path,
    and a second [delete] on the stale handle, like [is_ok], goes
    wrong. *)
Theorem construct_then_delete_restores s o v e :
  oracle s = true :: o →
  (∃ r s1 s2, success v s = Ret (Some r) s1
     ∧ delete (Some r) s1 = Ret None s2
     ∧ blocks s2 = blocks s
     ∧ delete (Some r) s2 = Fault ∧ is_ok (Some r) s2 = Fault)
  ∧ (∃ r s1 s2, fail e s = Ret (Some r) s1
     ∧ delete (Some r) s1 = Ret None s2
     ∧ blocks s2 = blocks s
     ∧ delete (Some r) s2 = Fault ∧ is_ok (Some r) s2 = Fault).
Proof.
  intros Ho.
  set (a := fresh (dom (blocks s))).
  assert (Ha : blocks s !! a = None) by apply not_elem_of_dom, is_fresh.
  assert (Hback : ∀ x y z : block T E,
    base.delete a (<[a := x]> (<[a := y]> (<[a := z]> (blocks s)))) = blocks s).
  { intros x y z. apply map_eq. intros k.
    destruct (decide (k = a)) as [->|Hk].
    - by rewrite lookup_delete_eq.
    - rewrite lookup_delete_ne by done. by rewrite !lookup_insert_ne by done. }
  split; exists a; eexists _, _; run; fold a;
    repeat (rewrite lookup_insert_eq; simpl);
    (split; [reflexivity|]); simpl;
    repeat (rewrite lookup_insert_eq; simpl);
    (split; [reflexivity|]); simpl; rewrite Hback;
    (split; [reflexivity|]); by rewrite Ha.
Qed.

(** X12: [success] and [fail] never disturb a Result that already
    exists: whatever they return, granted or refused, differs from the
    existing handle, and the existing Result stands for the sum it
    stood for. *)
Theorem constructors_keep_other_results s other u :
  view s other = Some u →
  (∀ v r s', success v s = Ret r s' → r ≠ other ∧ view s' other = Some u)
  ∧ (∀ e r s', fail e s = Ret r s' → r ≠ other ∧ view s' other = Some u).
Proof.
  intros Hv.
  assert (∃ b x, other = Some b ∧ blocks s !! b = Some x) as (b & x & -> & Hb).
  { destruct u as [v|e].
    - apply ResultSpec.view_inl in Hv as (b & -> & Hb). eauto.
    - apply ResultSpec.view_inr in Hv as (b & -> & Hb). eauto. }
  set (a := fresh (dom (blocks s))).
  assert (Ha : blocks s !! a = None) by apply not_elem_of_dom, is_fresh.
  assert (Hab : a ≠ b) by (intros ->; congruence).
  split; intros y r s';
    destruct (oracle s) as [|[] o] eqn:Ho; run; fold a;
    rewrite ?lookup_insert_eq; simpl; rewrite ?lookup_insert_eq; simpl;
    intros [= <- <-]; (split; [congruence|]); try done;
    unfold view in *; simpl; by rewrite !lookup_insert_ne by done.
Qed.

(** X19: a Result is never changed by looking at it: whenever [is_ok],
    [is_err], [value], [error], [value_or] or [error_or] returns, on
    any handle and any heap, the state is the one it was given. *)
Theorem inspection_leaves_state s result (fT : Tptr) (fE : Eptr) :
  (∀ b s', is_ok result s = Ret b s' → s' = s)
  ∧ (∀ b s', is_err result s = Ret b s' → s' = s)
  ∧ (∀ p s', value result s = Ret p s' → s' = s)
  ∧ (∀ p s', error result s = Ret p s' → s' = s)
  ∧ (∀ p s', value_or result fT s = Ret p s' → s' = s)
  ∧ (∀ p s', error_or result fE s = Ret p s' → s' = s).
Proof.
  split_and!; intros x s'; destruct result as [r|]; run;
    try (destruct (blocks s !! r) as [[[[[]|] u]| |]|]; simpl);
    congruence.
Qed.
End Generic.

End ResultLaws.

(** * What the printing functions of array.h write *)

Module ArrayPrint.
Import Mem Array Stdio ArrayIO.

Lemma append_cons (x : Ascii.ascii) (a b : string) :
  String x a +:+ b = String x (a +:+ b).
Proof. reflexivity. Qed.

Lemma append_assoc (a b c : string) : (a +:+ b) +:+ c = a +:+ (b +:+ c).
Proof. induction a as [|x a IH]; [done | by rewrite !append_cons, IH]. Qed.

Lemma append_empty_r (a : string) : a +:+ "" = a.
Proof. induction a as [|x a IH]; [done | by rewrite append_cons, IH]. Qed.

Lemma size_t_sub_one n : (1 ≤ n ≤ SIZE_MAX)%N → size_t_sub n 1 = (n - 1)%N.
Proof.
  unfold size_t_sub. generalize SIZE_MAX. intros m Hn.
  replace (n + (m + 1) - 1)%N with (n - 1 + 1 * (m + 1))%N by lia.
  rewrite N.Div0.mod_add. apply N.mod_small. lia.
Qed.

Lemma size_t_add_one i : (i < SIZE_MAX)%N → size_t_add i 1 = (i + 1)%N.
Proof.
  unfold size_t_add. generalize SIZE_MAX. intros m Hi.
  apply N.mod_small. lia.
Qed.

Section Generic.
Context {T : Type}.
Variable PRINT_T : T → IO (block T) unit.
Variable T_name : string.
Variable show : T → string.
Implicit Types (s : state (block T)) (array : ptr) (l : list T).

Lemma print_loop_from s a d l pre rest fuel out :
  laid_out s a d l → (N.of_nat (length l) ≤ SIZE_MAX)%N →
  prints_elements PRINT_T show s l →
  l = pre ++ rest → length rest < fuel →
  print_loop PRINT_T fuel (Some a) (N.of_nat (length pre)) s out
  = IRet tt s (out +:+ String.concat ", " (map show rest)).
Proof.
  intros [Ha Hd] Hmax Hp. revert pre fuel out.
  induction rest as [|x rest IH]; intros pre fuel out Hl Hfuel;
    (destruct fuel as [|fuel]; [simpl in Hfuel; lia|]); simpl;
    unfold Stdio.bind, lift, load_size; rewrite Ha.
  - assert ((N.of_nat (length pre) <? N.of_nat (length l))%N = false) as ->.
    { apply N.ltb_ge. rewrite Hl, length_app. simpl. lia. }
    unfold Stdio.ret. by rewrite append_empty_r.
  - assert (Hlen : length l = length pre + S (length rest)).
    { by rewrite Hl, length_app. }
    assert ((N.of_nat (length pre) <? N.of_nat (length l))%N = true) as ->.
    { apply N.ltb_lt. lia. }
    unfold load_data, load_elem. rewrite Ha. simpl. rewrite Hd.
    rewrite Nat2N.id.
    assert (l !! length pre = Some x) as ->.
    { rewrite Hl. by rewrite list_lookup_middle. }
    rewrite Hp by (rewrite Hl; set_solver).
    rewrite Ha. rewrite size_t_sub_one by lia.
    rewrite size_t_add_one by lia.
    replace (N.of_nat (length pre) + 1)%N with (N.of_nat (length (pre ++ [x])))
      by (rewrite length_app; simpl; lia).
    destruct rest as [|y rest].
    + assert ((N.of_nat (length pre) <? N.of_nat (length l) - 1)%N = false) as ->.
      { apply N.ltb_ge. simpl in Hlen. clear -Hlen. lia. }
      unfold Stdio.ret.
      rewrite (IH (pre ++ [x]) fuel (out +:+ show x));
        [| by rewrite <- app_assoc | simpl in Hfuel |- *; lia].
      simpl. by rewrite append_empty_r.
    + assert ((N.of_nat (length pre) <? N.of_nat (length l) - 1)%N = true) as ->.
      { apply N.ltb_lt. simpl in Hlen. clear -Hlen. lia. }
      unfold printf.
      rewrite (IH (pre ++ [x]) fuel ((out +:+ show x) +:+ ", "));
        [| by rewrite <- app_assoc | simpl in Hfuel |- *; lia].
      f_equal. change (String.concat ", " (map show (x :: y :: rest)))
        with (show x +:+ ", " +:+ String.concat ", " (map show (y :: rest))).
      by rewrite !append_assoc.
Qed.

(** X13: on a well-formed array whose size fits [size_t], with a
    budget above its length, [print] writes the elements between
    brackets, separated by a comma and a space (so [[]] for an empty
    array), and [println] writes the same followed by a newline;
    neither changes the heap. *)
Theorem print_writes_bracketed_list s array l fuel out :
  contents s array = Some l → (N.of_nat (length l) ≤ SIZE_MAX)%N →
  prints_elements PRINT_T show s l → length l < fuel →
  print PRINT_T fuel array s out = IRet tt s (out +:+ bracketed show l)
  ∧ println PRINT_T fuel array s out = IRet tt s (out +:+ bracketed show l +:+ nl).
Proof.
  intros (a & d & -> & Hl)%ArraySpec.contents_laid_out Hmax Hp Hfuel.
  assert (Hprint : ∀ out', print PRINT_T fuel (Some a) s out'
                           = IRet tt s (out' +:+ bracketed show l)).
  { intros out'. unfold print, Stdio.bind, printf. simpl.
    pose proof (print_loop_from s a d l [] l fuel (out' +:+ "[")
                  Hl Hmax Hp eq_refl Hfuel) as Hloop.
    change (N.of_nat (length [])) with 0%N in Hloop. rewrite Hloop.
    unfold bracketed. by rewrite !append_assoc. }
  split; [apply Hprint|].
  unfold println, Stdio.bind, printf. rewrite Hprint.
  by rewrite !append_assoc.
Qed.

(** X14: on such an array [debug] writes the header (with a closing
    brace right after its newline), the size in decimal, the data line
    as [println] writes it and a closing line; on a null array it
    writes the single line [Array<T> { NULL }]. *)
Theorem debug_writes_size_and_data s array l fuel out :
  (contents s array = Some l → (N.of_nat (length l) ≤ SIZE_MAX)%N →
   prints_elements PRINT_T show s l → length l < fuel →
   debug PRINT_T T_name fuel array s out
   = IRet tt s (out +:+ "Array<" +:+ T_name +:+ "> {" +:+ nl +:+ "}"
                +:+ "  size: " +:+ zu (N.of_nat (length l)) +:+ "," +:+ nl
                +:+ "  data: " +:+ bracketed show l +:+ nl
                +:+ "}" +:+ nl))
  ∧ debug PRINT_T T_name fuel NULL s out
    = IRet tt s (out +:+ "Array<" +:+ T_name +:+ "> { NULL }" +:+ nl).
Proof.
  split; [|done].
  intros Hc Hmax Hp Hfuel.
  destruct (print_writes_bracketed_list s array l fuel
              (((out +:+ "Array<" +:+ T_name +:+ "> {" +:+ nl +:+ "}")
                +:+ "  size: " +:+ zu (N.of_nat (length l)) +:+ "," +:+ nl)
               +:+ "  data: ") Hc Hmax Hp Hfuel) as [_ Hln].
  apply ArraySpec.contents_laid_out in Hc as (a & d & -> & [Ha Hd]).
  unfold debug. simpl. unfold Stdio.bind, printf, lift, load_size.
  rewrite Ha. rewrite Hln. f_equal.
  by rewrite !append_assoc.
Qed.
End Generic.

(** X15: array/main.c started on an empty heap with nothing written
    yet, given a budget of six: when the allocator grants its two
    requests it writes the debug text of the five names, frees both
    blocks and returns 0; when either request is refused it goes
    wrong. *)
Theorem array_main_outcome o fuel :
  6 ≤ fuel →
  DemoIO.array_main fuel (Demo.boot o) ""
  = match o with
    | true :: true :: o' => IRet 0%Z (Demo.boot o') DemoIO.array_main_text
    | _ => IFault
    end.
Proof.
  intros Hfuel.
  do 6 (destruct fuel as [|fuel]; [lia|]).
  destruct o as [|[] [|[] o']]; reflexivity.
Qed.

End ArrayPrint.

(** * What the printing functions of result.h write *)

Module ResultPrint.
Import Mem Result Stdio ResultIO.

Section Generic.
Context {T E : Type}.
Variable PRINT_T : T → IO (block T E) unit.
Variable PRINT_E : E → IO (block T E) unit.
Variable T_name E_name : string.
Implicit Types (s : state (block T E)) (result : ptr) (v : T) (e : E).

Ltac run Hr HP :=
  unfold debug, println, print, print_payload, Stdio.bind, lift, load_is_ok,
    load_ok, load_err, printf; simpl;
  repeat (rewrite ?Hr, ?HP; simpl);
  f_equal; rewrite ?ArrayPrint.append_assoc; reflexivity.

(** X16: [print] writes [Ok { v }] for a success holding [v] and
    [Error { e }] for a failure holding [e], the payload as the
    includer's macro prints it; [println] adds a newline; the heap is
    left as it was. *)
Theorem result_print_writes_tag_and_payload s result out text :
  (∀ v, view s result = Some (inl v) → prints PRINT_T s v text →
     print PRINT_T PRINT_E result s out
       = IRet tt s (out +:+ "Ok { " +:+ text +:+ " }")
     ∧ println PRINT_T PRINT_E result s out
       = IRet tt s (out +:+ "Ok { " +:+ text +:+ " }" +:+ nl))
  ∧ (∀ e, view s result = Some (inr e) → prints PRINT_E s e text →
     print PRINT_T PRINT_E result s out
       = IRet tt s (out +:+ "Error { " +:+ text +:+ " }")
     ∧ println PRINT_T PRINT_E result s out
       = IRet tt s (out +:+ "Error { " +:+ text +:+ " }" +:+ nl)).
Proof.
  split.
  - intros v (r & -> & Hr)%ResultSpec.view_inl HP. split; run Hr HP.
  - intros e (r & -> & Hr)%ResultSpec.view_inr HP. split; run Hr HP.
Qed.

(** X17: [debug] writes the variant and the two type names, the
    discriminant as [true] or [false], and the live payload, on three
    lines closed by a brace; the heap is left as it was. *)
Theorem result_debug_writes_variant_and_value s result out text :
  (∀ v, view s result = Some (inl v) → prints PRINT_T s v text →
     debug PRINT_T PRINT_E T_name E_name result s out
       = IRet tt s (out +:+ "Result::Ok<" +:+ T_name +:+ ", " +:+ E_name
                    +:+ "> {" +:+ nl
                    +:+ "  is_ok: true," +:+ nl
                    +:+ "  value: " +:+ text +:+ nl +:+ "}" +:+ nl))
  ∧ (∀ e, view s result = Some (inr e) → prints PRINT_E s e text →
     debug PRINT_T PRINT_E T_name E_name result s out
       = IRet tt s (out +:+ "Result::Error<" +:+ T_name +:+ ", " +:+ E_name
                    +:+ "> {" +:+ nl
                    +:+ "  is_ok: false," +:+ nl
                    +:+ "  value: " +:+ text +:+ nl +:+ "}" +:+ nl)).
Proof.
  split.
  - intros v (r & -> & Hr)%ResultSpec.view_inl HP. run Hr HP.
  - intros e (r & -> & Hr)%ResultSpec.view_inr HP. run Hr HP.
Qed.
End Generic.

(** X18: on a null handle the printing functions of result.h write
    nothing, and so does [print] of array.h; [println] of array.h has
    no guard of its own and still writes its newline. *)
Theorem null_handles_print {T E U : Type}
    (PT : T → IO (block T E) unit) (PE : E → IO (block T E) unit)
    (PU : U → IO (Array.block U) unit) (tn en : string) (fuel : nat)
    (s : state (block T E)) (a : state (Array.block U)) (out : string) :
  print PT PE NULL s out = IRet tt s out
  ∧ println PT PE NULL s out = IRet tt s out
  ∧ debug PT PE tn en NULL s out = IRet tt s out
  ∧ ArrayIO.print PU fuel NULL a out = IRet tt a out
  ∧ ArrayIO.println PU fuel NULL a out = IRet tt a (out +:+ nl).
Proof. by split_and!. Qed.

End ResultPrint.

(** * The further laws at the heaps of the two programs *)

Module LawsDemo.
Import Mem Stdio Demo Heaps.

Lemma set_updates_contents_witness :
  ∃ s', Array.set (Some 1%positive) 2 (Some "Carol") five_names = Ret true s'
    ∧ Array.contents s' (Some 1%positive)
      = Some (<[N.to_nat 2 := Some "Carol"]> names)
    ∧ oracle s' = oracle five_names ∧ calls s' = calls five_names.
Proof.
  apply (ArrayLaws.set_updates_contents five_names (Some 1%positive) names 2
           (Some "Carol")); reflexivity.
Defined.

Lemma replace_is_get_then_set_witness :
  (∃ s' p, Array.replace (Some 1%positive) 2 (Some "Carol") five_names = Ret (Some p) s'
     ∧ Array.get (Some 1%positive) 2 five_names = Ret (Some p) five_names
     ∧ Array.set (Some 1%positive) 2 (Some "Carol") five_names = Ret true s')
  ∧ Array.replace (Some 1%positive) 5 (Some "Frank") five_names = Ret NULL five_names.
Proof.
  split.
  - apply (ArrayLaws.replace_is_get_then_set five_names (Some 1%positive) names 2
             (Some "Carol")); reflexivity.
  - apply (ArrayLaws.replace_is_get_then_set five_names (Some 1%positive) names 5
             (Some "Frank")); [reflexivity | by vm_compute].
Defined.

Lemma new_then_delete_restores_witness :
  (∃ a s1 s2, Array.new 3 (five_names_with [true; true]) = Ret (Some a) s1
     ∧ Array.delete (Some a) s1 = Ret true s2
     ∧ blocks s2 = blocks (five_names_with [true; true]) ∧ oracle s2 = [])
  ∧ (∃ a s1 s2, Array.new 3 (five_names_with [true; false]) = Ret (Some a) s1
     ∧ Array.delete (Some a) s1 = Ret true s2
     ∧ blocks s2 = blocks (five_names_with [true; false]) ∧ oracle s2 = []).
Proof.
  split.
  - apply (ArrayLaws.new_then_delete_restores (five_names_with [true; true]) 3 true []).
    reflexivity.
  - apply (ArrayLaws.new_then_delete_restores (five_names_with [true; false]) 3 false []).
    reflexivity.
Defined.

Lemma deleted_handle_goes_wrong_witness :
  ∃ s', Array.delete (Some 1%positive) five_names = Ret true s'
    ∧ Array.contents s' (Some 1%positive) = None
    ∧ Array.delete (Some 1%positive) s' = Fault
    ∧ Array.get (Some 1%positive) 0 s' = Fault
    ∧ Array.set (Some 1%positive) 0 (Some "Zoe") s' = Fault
    ∧ Array.replace (Some 1%positive) 0 (Some "Zoe") s' = Fault
    ∧ Array.size (Some 1%positive) s' = Fault.
Proof.
  apply (ArrayLaws.deleted_handle_goes_wrong five_names (Some 1%positive) names 0
           (Some "Zoe")).
  reflexivity.
Defined.

Lemma new_keeps_other_arrays_witness :
  Some 3%positive ≠ Some 1%positive ∧ Some 3%positive ≠ NULL
  ∧ Array.contents (State (blocks two_arrays) [] 0) (Some 1%positive) = Some names.
Proof.
  apply (ArrayLaws.new_keeps_other_arrays (five_names_with [true; true]) 2
           (Some 1%positive) names (Some 3%positive) (State (blocks two_arrays) [] 0));
    reflexivity.
Defined.

Lemma set_keeps_other_arrays_witness :
  ∃ s', Array.set (Some 3%positive) 1 (Some "Zoe") two_arrays = Ret true s'
    ∧ Array.contents s' (Some 1%positive) = Some names.
Proof.
  eexists. split; [reflexivity|].
  apply (ArrayLaws.set_keeps_other_arrays two_arrays
           3%positive 4%positive [None; None] 1%positive 2%positive names
           1 (Some "Zoe") true).
  - split; reflexivity.
  - split; reflexivity.
  - discriminate.
  - reflexivity.
Defined.

Lemma match_dispatches_witness :
  Result.match_ (Some 1%positive) mark_success mark_fail outcomes
    = call (mark_success (Some "Operation succeeded")) outcomes
  ∧ Result.match_ (Some 2%positive) mark_success mark_fail outcomes
    = call (mark_fail (Some "Operation failed")) outcomes
  ∧ Result.match_ NULL mark_success mark_fail outcomes = Ret tt outcomes.
Proof.
  split; [|split].
  - apply (ResultLaws.match_dispatches outcomes (Some 1%positive) mark_success mark_fail).
    reflexivity.
  - apply (ResultLaws.match_dispatches outcomes (Some 2%positive) mark_success mark_fail).
    reflexivity.
  - apply (ResultLaws.match_dispatches outcomes NULL mark_success mark_fail).
    reflexivity.
Defined.

Lemma error_or_else_lazy_witness :
  (∃ p, Result.error_or_else (Some 2%positive) trap outcomes = Ret p outcomes
     ∧ Result.derefE outcomes p = Some (Some "Operation failed"))
  ∧ Result.error_or_else (Some 1%positive) error_supplier outcomes
    = call error_supplier outcomes
  ∧ Result.error_or_else NULL error_supplier outcomes = Ret NULL outcomes.
Proof.
  split; [|split].
  - apply (ResultLaws.error_or_else_lazy outcomes (Some 2%positive) trap).
    reflexivity.
  - apply (ResultLaws.error_or_else_lazy outcomes (Some 1%positive) error_supplier);
      [discriminate | reflexivity].
  - apply (ResultLaws.error_or_else_lazy outcomes NULL error_supplier).
    reflexivity.
Defined.

Lemma is_err_against_is_ok_witness :
  (Result.is_ok NULL outcomes = Ret false outcomes
   ∧ Result.is_err NULL outcomes = Ret false outcomes)
  ∧ (Result.is_ok (Some 2%positive) outcomes = Ret false outcomes
     ↔ Result.is_err (Some 2%positive) outcomes = Ret (negb false) outcomes).
Proof.
  split.
  - apply (ResultLaws.is_err_against_is_ok outcomes NULL). reflexivity.
  - apply (ResultLaws.is_err_against_is_ok outcomes (Some 2%positive)). discriminate.
Defined.

Lemma construct_then_delete_restores_witness :
  (∃ r s1 s2, Result.success (Some "ls -l") (outcomes_with [true]) = Ret (Some r) s1
     ∧ Result.delete (Some r) s1 = Ret None s2
     ∧ blocks s2 = blocks (outcomes_with [true])
     ∧ Result.delete (Some r) s2 = Fault ∧ Result.is_ok (Some r) s2 = Fault)
  ∧ (∃ r s1 s2, Result.fail (Some "not found") (outcomes_with [true]) = Ret (Some r) s1
     ∧ Result.delete (Some r) s1 = Ret None s2
     ∧ blocks s2 = blocks (outcomes_with [true])
     ∧ Result.delete (Some r) s2 = Fault ∧ Result.is_ok (Some r) s2 = Fault).
Proof.
  apply (ResultLaws.construct_then_delete_restores (outcomes_with [true]) []
           (Some "ls -l") (Some "not found")).
  reflexivity.
Defined.

Lemma constructors_keep_other_results_witness :
  (∀ v r s', Result.success v (outcomes_with [true]) = Ret r s' →
     r ≠ Some 2%positive
     ∧ Result.view s' (Some 2%positive) = Some (inr (Some "Operation failed")))
  ∧ (∀ e r s', Result.fail e (outcomes_with [false]) = Ret r s' →
     r ≠ Some 2%positive
     ∧ Result.view s' (Some 2%positive) = Some (inr (Some "Operation failed"))).
Proof.
  split.
  - apply (ResultLaws.constructors_keep_other_results (outcomes_with [true])
             (Some 2%positive) (inr (Some "Operation failed"))).
    reflexivity.
  - apply (ResultLaws.constructors_keep_other_results (outcomes_with [false])
             (Some 2%positive) (inr (Some "Operation failed"))).
    reflexivity.
Defined.

Lemma inspection_leaves_state_witness :
  (∀ b s', Result.is_ok (Some 1%positive) outcomes = Ret b s' → s' = outcomes)
  ∧ (∀ p s', Result.value_or (Some 2%positive) (Some (Result.at_T 3%positive)) outcomes
             = Ret p s' → s' = outcomes).
Proof.
  split.
  - apply (ResultLaws.inspection_leaves_state outcomes (Some 1%positive) NULL NULL).
  - apply (ResultLaws.inspection_leaves_state outcomes (Some 2%positive)
             (Some (Result.at_T 3%positive)) NULL).
Defined.

Lemma print_str_prints_names :
  ArrayIO.prints_elements DemoIO.print_str text_of five_names names.
Proof.
  intros x out Hx. unfold names in Hx.
  repeat (apply elem_of_cons in Hx as [->|Hx]; [reflexivity|]).
  by apply elem_of_nil in Hx.
Qed.

Lemma print_writes_bracketed_list_witness :
  ArrayIO.print DemoIO.print_str 6 (Some 1%positive) five_names ""
    = IRet tt five_names "[Alice, Bob, Charlie, Diana, Eve]"
  ∧ ArrayIO.println DemoIO.print_str 6 (Some 1%positive) five_names ""
    = IRet tt five_names ("[Alice, Bob, Charlie, Diana, Eve]" +:+ nl).
Proof.
  apply (ArrayPrint.print_writes_bracketed_list DemoIO.print_str text_of
           five_names (Some 1%positive) names 6 "").
  - reflexivity.
  - by vm_compute.
  - apply print_str_prints_names.
  - simpl. lia.
Defined.

Lemma debug_writes_size_and_data_witness :
  ArrayIO.debug DemoIO.print_str "str" 6 (Some 1%positive) five_names ""
    = IRet tt five_names DemoIO.array_main_text
  ∧ ArrayIO.debug DemoIO.print_str "str" 6 NULL five_names ""
    = IRet tt five_names ("Array<str> { NULL }" +:+ nl).
Proof.
  split.
  - apply (ArrayPrint.debug_writes_size_and_data DemoIO.print_str "str" text_of
             five_names (Some 1%positive) names 6 "").
    + reflexivity.
    + by vm_compute.
    + apply print_str_prints_names.
    + simpl. lia.
  - apply (ArrayPrint.debug_writes_size_and_data DemoIO.print_str "str" text_of
             five_names (Some 1%positive) names 6 "").
Defined.

Lemma array_main_outcome_witness :
  DemoIO.array_main 6 (boot [true; true]) "" = IRet 0%Z (boot []) DemoIO.array_main_text.
Proof. apply (ArrayPrint.array_main_outcome [true; true] 6). lia. Defined.

Lemma result_print_writes_tag_and_payload_witness :
  (ResultIO.print DemoIO.print_str DemoIO.print_str (Some 1%positive) outcomes ""
     = IRet tt outcomes "Ok { Operation succeeded }"
   ∧ ResultIO.println DemoIO.print_str DemoIO.print_str (Some 1%positive) outcomes ""
     = IRet tt outcomes ("Ok { Operation succeeded }" +:+ nl))
  ∧ (ResultIO.print DemoIO.print_str DemoIO.print_str (Some 2%positive) outcomes ""
     = IRet tt outcomes "Error { Operation failed }"
   ∧ ResultIO.println DemoIO.print_str DemoIO.print_str (Some 2%positive) outcomes ""
     = IRet tt outcomes ("Error { Operation failed }" +:+ nl)).
Proof.
  split.
  - exact (proj1 (ResultPrint.result_print_writes_tag_and_payload
                    DemoIO.print_str DemoIO.print_str outcomes (Some 1%positive) ""
                    "Operation succeeded")
             (Some "Operation succeeded") eq_refl (fun out => eq_refl)).
  - exact (proj2 (ResultPrint.result_print_writes_tag_and_payload
                    DemoIO.print_str DemoIO.print_str outcomes (Some 2%positive) ""
                    "Operation failed")
             (Some "Operation failed") eq_refl (fun out => eq_refl)).
Defined.

Lemma result_debug_writes_variant_and_value_witness :
  ResultIO.debug DemoIO.print_str DemoIO.print_str "str" "str" (Some 1%positive) outcomes ""
    = IRet tt outcomes
        ("Result::Ok<str, str> {" +:+ nl +:+ "  is_ok: true," +:+ nl
         +:+ "  value: Operation succeeded" +:+ nl +:+ "}" +:+ nl)
  ∧ ResultIO.debug DemoIO.print_str DemoIO.print_str "str" "str" (Some 2%positive) outcomes ""
    = IRet tt outcomes
        ("Result::Error<str, str> {" +:+ nl +:+ "  is_ok: false," +:+ nl
         +:+ "  value: Operation failed" +:+ nl +:+ "}" +:+ nl).
Proof.
  split.
  - exact (proj1 (ResultPrint.result_debug_writes_variant_and_value
                    DemoIO.print_str DemoIO.print_str "str" "str" outcomes
                    (Some 1%positive) "" "Operation succeeded")
             (Some "Operation succeeded") eq_refl (fun out => eq_refl)).
  - exact (proj2 (ResultPrint.result_debug_writes_variant_and_value
                    DemoIO.print_str DemoIO.print_str "str" "str" outcomes
                    (Some 2%positive) "" "Operation failed")
             (Some "Operation failed") eq_refl (fun out => eq_refl)).
Defined.

End LawsDemo.
